(** * Brand-card generator ([generate_brand_cards.py]): model and properties

    The script reads a spreadsheet of brands, downloads a logo per brand,
    derives a background colour from the logo, and renders a square card.
    This development embeds its functions in Rocq and proves properties of
    them.

    Conventions of the embedding:
    - a Python [str] is the list of its code points;
    - a Python [float] is a primitive binary64 float ([PrimFloat]), whose
      operations are specified by [SpecFloat] through [FloatAxioms];
    - a Python exception is a value [Raise e] of the result type [res];
    - an RGBA image is its size and its pixels in row-major order, as
      [Image.getdata] lists them;
    - what Pillow and the Unicode database compute, and this repository only
      calls, is an interface (a class) the model is parametrised by. *)

From Stdlib Require Import ZArith NArith List Bool Lia String Ascii.
From Stdlib Require Import Floats Reals Lra.
From Stdlib Require Import Psatz.
Import ListNotations.

#[local] Set Warnings "-inexact-float".
#[local] Open Scope Z_scope.

(* ================================================================== *)
(** * Part I: the model *)
(* ================================================================== *)

(** ** Python results *)

Inductive exn :=
| ZeroDivisionError
| ValueError
| OverflowError
| TypeError
| OSError
| SystemExit (code : Z).

Inductive res (A : Type) :=
| Ok (a : A)
| Raise (e : exn).
Arguments Ok {A} a.
Arguments Raise {A} e.

Definition bind {A B} (r : res A) (k : A -> res B) : res B :=
  match r with
  | Ok a => k a
  | Raise e => Raise e
  end.

Notation "x <- c ;; k" := (bind c (fun x => k))
  (at level 61, c at next level, right associativity).
Notation "' p <- c ;; k" := (bind c (fun p => k))
  (at level 61, p pattern, c at next level, right associativity).

(** ** Strings *)

Module Str.

(** A [str] is the list of its code points. *)
Definition pystr := list N.

Definition of_ascii (s : string) : pystr :=
  map N_of_ascii (list_ascii_of_string s).

Definition between (lo hi c : N) : bool := ((lo <=? c) && (c <=? hi))%N.

(** ASCII white space of CPython: TAB..CR, FS..US and the space. *)
Definition ascii_isspace (c : N) : bool :=
  between 9 13 c || between 28 31 c || (c =? 32)%N.

Definition ascii_islower (c : N) : bool := between 97 122 c.
Definition ascii_isupper (c : N) : bool := between 65 90 c.
Definition ascii_isdigit (c : N) : bool := between 48 57 c.

Definition underscore : N := 95.
Definition hyphen : N := 45.

(** The capital sigma, U+03A3, and the two small ones: the final sigma,
    U+03C2, and the other, U+03C3. *)
Definition capital_sigma : N := 931.
Definition final_sigma : N := 962.
Definition small_sigma : N := 963.

(** What the Unicode database says about the code points from 128 on:
    [str.isspace], [str.isalnum], the lower-case mapping of one code point,
    and the two properties CPython reads to place a final sigma, Cased and
    Case_Ignorable. The ASCII range is written out below.

    Two facts of the database come with it. The characters of a lower-case
    mapping are themselves left as they are by lower-casing: none is an
    ASCII capital, and one beyond ASCII is mapped to itself. So are the two
    small sigmas. *)
Class UnicodeDB := {
  uni_isspace : N -> bool;
  uni_isalnum : N -> bool;
  uni_lower : N -> list N;
  uni_cased : N -> bool;
  uni_case_ignorable : N -> bool;
  uni_lower_stable : forall c d, (128 <= c)%N -> In d (uni_lower c) ->
    if (d <? 128)%N then ascii_isupper d = false else uni_lower d = [d];
  uni_lower_sigma : uni_lower final_sigma = [final_sigma] /\
                    uni_lower small_sigma = [small_sigma]
}.

Lemma symbols_only_stable (c d : N) :
  (128 <= c)%N -> In d [c] ->
  if (d <? 128)%N then ascii_isupper d = false else [d] = [d].
Proof.
  intros Hc [<-|[]]. destruct (N.ltb_spec c 128); [lia | reflexivity].
Qed.

(** A database that knows no letter, digit or blank beyond ASCII. It is
    exact on strings whose other code points are symbols, such as the trade
    mark sign. *)
Definition symbols_only : UnicodeDB :=
  {| uni_isspace := fun _ => false;
     uni_isalnum := fun _ => false;
     uni_lower := fun c => [c];
     uni_cased := fun _ => false;
     uni_case_ignorable := fun _ => false;
     uni_lower_stable := symbols_only_stable;
     uni_lower_sigma := conj eq_refl eq_refl |}.

Section WithDB.
Context {db : UnicodeDB}.

Definition isspace (c : N) : bool :=
  if (c <? 128)%N then ascii_isspace c else uni_isspace c.

(** [\w] of a [str] pattern: alphanumeric or the underscore. *)
Definition isword (c : N) : bool :=
  if (c <? 128)%N
  then ascii_islower c || ascii_isupper c || ascii_isdigit c || (c =? underscore)%N
  else uni_isalnum c.

Definition lower_char (c : N) : list N :=
  if (c <? 128)%N then (if ascii_isupper c then [(c + 32)%N] else [c])
  else uni_lower c.

(** Cased, and Case_Ignorable: in ASCII, the letters, and the apostrophe,
    the full stop, the colon, the circumflex and the grave accent. *)
Definition cased (c : N) : bool :=
  if (c <? 128)%N then ascii_islower c || ascii_isupper c else uni_cased c.

Definition case_ignorable (c : N) : bool :=
  if (c <? 128)%N
  then (c =? 39)%N || (c =? 46)%N || (c =? 58)%N || (c =? 94)%N || (c =? 96)%N
  else uni_case_ignorable c.

(** The second half of CPython's [handle_capital_sigma]: the next character
    that is not case-ignorable is there and is cased. *)
Fixpoint cased_ahead (s : pystr) : bool :=
  match s with
  | [] => false
  | c :: t => if case_ignorable c then cased_ahead t else cased c
  end.

(** [value.lower()]: each character is mapped on its own, but for the
    capital sigma, which becomes a final sigma after a cased letter when no
    cased letter follows (case-ignorable characters between are skipped).
    [after_cased] says that the last character before that is not
    case-ignorable is there and is cased. *)
Fixpoint lower_from (after_cased : bool) (s : pystr) : pystr :=
  match s with
  | [] => []
  | c :: t =>
      (if (c =? capital_sigma)%N
       then [if after_cased && negb (cased_ahead t) then final_sigma else small_sigma]
       else lower_char c)
      ++ lower_from (if case_ignorable c then after_cased else cased c) t
  end.

Definition lower (s : pystr) : pystr := lower_from false s.

Fixpoint lstrip (s : pystr) : pystr :=
  match s with
  | [] => []
  | c :: t => if isspace c then lstrip t else s
  end.

Definition rstrip (s : pystr) : pystr := rev (lstrip (rev s)).

(** [value.strip()] *)
Definition strip (s : pystr) : pystr := rstrip (lstrip s).

(** [re.sub(r"[^\w\s-]", "", value)]: every character that is neither a
    word character, nor white space, nor a hyphen is deleted. *)
Definition keeps (c : N) : bool := isword c || isspace c || (c =? hyphen)%N.

Definition sub_nonword (s : pystr) : pystr := filter keeps s.

(** [re.sub(r"[\s]+", "_", value)]: every maximal run of white space becomes
    one underscore. [in_run] says that the previous character was white
    space, whose run has been replaced already. *)
Fixpoint sub_spaces (in_run : bool) (s : pystr) : pystr :=
  match s with
  | [] => []
  | c :: t =>
      if isspace c
      then (if in_run then sub_spaces true t else underscore :: sub_spaces true t)
      else c :: sub_spaces false t
  end.

Definition slugify (value : pystr) : pystr :=
  let value := lower (strip value) in
  let value := sub_nonword value in
  let value := sub_spaces false value in
  match value with
  | [] => of_ascii "brand"
  | _ => value
  end.

End WithDB.

(** The characters the slug of an ASCII name is made of. *)
Definition ascii_slug_char (c : N) : bool :=
  ascii_islower c || ascii_isdigit c || (c =? underscore)%N || (c =? hyphen)%N.

(** "Coca-Cola(TM) Lietuva!", the trade mark sign being U+2122. *)
Definition coca_cola : pystr :=
  of_ascii "Coca-Cola" ++ [8482%N] ++ of_ascii " Lietuva!".

End Str.


(** ** Numbers *)

Module Py.

#[local] Open Scope float_scope.

(** [float(n)] for an [int]: the nearest binary64 value, ties to even;
    [OverflowError] when the integer is too large. *)
Definition float_of_int (n : Z) : res float :=
  match binary_normalize prec emax n 0 false with
  | S754_infinity _ => Raise OverflowError
  | f => Ok (SF2Prim f)
  end.

(** [int(x)] for a [float]: truncation towards zero; [ValueError] on NaN and
    [OverflowError] on an infinity. *)
Definition int_of_float (x : float) : res Z :=
  match Prim2SF x with
  | S754_nan => Raise ValueError
  | S754_infinity _ => Raise OverflowError
  | S754_zero _ => Ok 0%Z
  | S754_finite s m e => Ok (cond_Zopp s (Z.shiftl (Zpos m) e))
  end.

(** [x / y] on floats: Python raises where IEEE 754 returns an infinity or
    NaN for a zero divisor. *)
Definition float_truediv (x y : float) : res float :=
  if y =? 0 then Raise ZeroDivisionError else Ok (x / y).

(** [a / b] on ints. CPython divides the two conversions when both integers
    have at most 53 bits, which is every case an image size reaches; beyond
    that it rounds the exact quotient once. *)
Definition int_truediv (a b : Z) : res float :=
  if (b =? 0)%Z then Raise ZeroDivisionError
  else x <- float_of_int a ;; y <- float_of_int b ;; Ok (x / y).

(** [n * x] and [n / x] with an [int] on the left: the int is converted. *)
Definition int_mul_float (n : Z) (x : float) : res float :=
  y <- float_of_int n ;; Ok (y * x).

Definition int_div_float (n : Z) (x : float) : res float :=
  y <- float_of_int n ;; float_truediv y x.

(** The builtins [min(a, b)] and [max(a, b)]: the first argument is kept
    unless the second is strictly smaller (greater). *)
Definition fmin (a b : float) : float := if b <? a then b else a.
Definition fmax (a b : float) : float := if a <? b then b else a.

(** The C library's [pow], which [**] calls. *)
Class Libm := { libm_pow : float -> float -> float }.

(** [x ** y] on floats. CPython answers 1.0 for the base 1.0 itself and
    calls [pow] otherwise; its other special cases (a zero, negative,
    infinite or NaN base, a zero or infinite exponent) are not reached from
    [channel] below, whose base is positive and finite and whose exponent is
    2.4. *)
Definition float_pow {lm : Libm} (x y : float) : float :=
  if x =? 1 then 1 else libm_pow x y.

(** A stand-in for [pow] that squares its base: it is used to instantiate
    the hypothesis a theorem makes on [pow], not as a model of it. *)
Definition square_pow : Libm := {| libm_pow := fun x _ => x * x |}.

End Py.

(** ** Colours *)

Module Color.
Import Py.

Definition color := (Z * Z * Z)%type.

Definition valid_channel (c : Z) : Prop := (0 <= c <= 255)%Z.

Definition valid_color (rgb : color) : Prop :=
  let '(r, g, b) := rgb in valid_channel r /\ valid_channel g /\ valid_channel b.

Definition color_eqb (x y : color) : bool :=
  let '(r1, g1, b1) := x in
  let '(r2, g2, b2) := y in
  ((r1 =? r2) && (g1 =? g2) && (b1 =? b2))%Z.

Section WithLibm.
Context {lm : Libm}.
#[local] Open Scope float_scope.

(** The inner function [channel] of [relative_luminance]. *)
Definition channel (c : Z) : res float :=
  c <- int_div_float c 255.0 ;;
  if c <=? 0.03928 then float_truediv c 12.92
  else
    t <- float_truediv (c + 0.055) 1.055 ;;
    Ok (float_pow t 2.4).

Definition relative_luminance (rgb : color) : res float :=
  let '(r, g, b) := rgb in
  cr <- channel r ;;
  cg <- channel g ;;
  cb <- channel b ;;
  Ok (0.2126 * cr + 0.7152 * cg + 0.0722 * cb).

Definition contrast_ratio (rgb1 rgb2 : color) : res float :=
  L1 <- relative_luminance rgb1 ;;
  L2 <- relative_luminance rgb2 ;;
  let '(L1, L2) := (fmax L1 L2, fmin L1 L2) in
  float_truediv (L1 + 0.05) (L2 + 0.05).

End WithLibm.

End Color.


(** ** Images *)

Module Img.
Import Py Color.

(** An RGBA pixel [(r, g, b, a)], each channel in 0..255. *)
Definition pixel := (Z * Z * Z * Z)%type.

Definition rgb_of (p : pixel) : color := let '(r, g, b, _) := p in (r, g, b).
Definition alpha_of (p : pixel) : Z := let '(_, _, _, a) := p in a.

(** An image of mode RGBA: [size] is (width, height), [getdata] the pixels
    row by row. *)
Record Image := mkImage { size : Z * Z; getdata : list pixel }.

(** A single band (mode L): what [Image.split] returns four of, and what a
    mask is. *)
Record Band := mkBand { bsize : Z * Z; bdata : list Z }.

(** The [len] integers from [start] on: the indices of a pixel list. *)
Fixpoint zseq (start : Z) (len : nat) : list Z :=
  match len with
  | O => []
  | S n => start :: zseq (start + 1) n
  end.

(** [Image.new("RGBA", size, fill)] *)
Definition Image_new (sz : Z * Z) (fill : pixel) : Image :=
  mkImage sz (repeat fill (Z.to_nat (fst sz * snd sz))).

(** [Image.new] as Pillow checks its argument: a negative width or height
    is refused with [ValueError]. *)
Definition Image_new_checked (sz : Z * Z) (fill : pixel) : res Image :=
  if (fst sz <? 0) || (snd sz <? 0) then Raise ValueError else Ok (Image_new sz fill).

(** [im.copy()]: images are values here. *)
Definition copy (im : Image) : Image := im.

(** [im.putdata(data)] with as many pixels as the image holds. *)
Definition putdata (im : Image) (data : list pixel) : Image :=
  mkImage (size im) data.

(** [im.split()]: the bands R, G, B and A. *)
Definition split (im : Image) : list Band :=
  let band f := mkBand (size im) (map f (getdata im)) in
  [ band (fun '(r, _, _, _) => r); band (fun '(_, g, _, _) => g);
    band (fun '(_, _, b, _) => b); band (fun '(_, _, _, a) => a) ].

(** Pillow's 8-bit blend of [in1] and [in2] by [mask]: [in2] where the
    mask is 255, [in1] where it is 0. *)
Definition blend8 (mask in1 in2 : Z) : Z :=
  let tmp := in1 * (255 - mask) + in2 * mask + 128 in
  Z.shiftr (Z.shiftr tmp 8 + tmp) 8.

Definition blend_pixel (mask : Z) (p1 p2 : pixel) : pixel :=
  let '(r1, g1, b1, a1) := p1 in
  let '(r2, g2, b2, a2) := p2 in
  (blend8 mask r1 r2, blend8 mask g1 g2, blend8 mask b1 b2, blend8 mask a1 a2).

(** [dst.paste(src, box, mask)] with a 2-tuple box and a mask as large as
    [src]: the pixels of [dst] under the pasted region are blended with
    those of [src] by the mask, the others are kept. *)
Definition paste (dst src : Image) (box : Z * Z) (mask : list Z) : Image :=
  let '(W, _) := size dst in
  let '(sw, sh) := size src in
  let '(bx, by_) := box in
  let at_ (i : Z) (p : pixel) : pixel :=
    let x := i mod W - bx in
    let y := i / W - by_ in
    if (0 <=? x) && (x <? sw) && (0 <=? y) && (y <? sh)
    then let j := Z.to_nat (y * sw + x) in
         blend_pixel (nth j mask 0) p (nth j (getdata src) (0, 0, 0, 0))
    else p in
  mkImage (size dst) (map (fun ip => at_ (fst ip) (snd ip))
                          (combine (zseq 0 (List.length (getdata dst))) (getdata dst))).

(** The pixel at column [x] and row [y]. *)
Definition getpixel (im : Image) (x y : Z) : pixel :=
  nth (Z.to_nat (y * fst (size im) + x)) (getdata im) (0, 0, 0, 0).

(** What this repository asks of Pillow and the model leaves open: the
    Lanczos resampling of [Image.resize], the size [Image.thumbnail] shrinks
    an image to, and the shape [ImageDraw.rounded_rectangle] draws. *)
Class Pillow := {
  resize : Image -> Z * Z -> Image;
  resize_size : forall im sz, size (resize im sz) = sz;
  thumbnail_size : Z * Z -> Z * Z -> Z * Z;
  rounded_rectangle : Z * Z -> Z -> list Z
}.

Section WithPillow.
Context {pil : Pillow}.

(** [im.thumbnail(bound, Image.LANCZOS)]: an image that fits the bound is
    left as it is, a larger one is resampled. *)
Definition thumbnail (im : Image) (bound : Z * Z) : Image :=
  let '(w, h) := size im in
  let '(x, y) := bound in
  if (w <=? x) && (h <=? y) then im
  else resize im (thumbnail_size (w, h) bound).

(** The test of the loop of [dominant_color]: the pixel is counted. *)
Definition counted (p : pixel) : bool :=
  let '(r, g, b, a) := p in
  negb (a <? 10) && negb ((240 <? r) && (240 <? g) && (240 <? b)).

(** [histogram[key] = histogram.get(key, 0) + 1] on a dict, whose items keep
    the order in which the keys were first inserted. *)
Fixpoint incr (key : color) (histogram : list (color * Z)) : list (color * Z) :=
  match histogram with
  | [] => [(key, 1)]
  | (k, n) :: rest =>
      if color_eqb k key then (k, n + 1) :: rest else (k, n) :: incr key rest
  end.

Definition count_pixels (pixels : list pixel) : list (color * Z) :=
  fold_left (fun histogram p => if counted p then incr (rgb_of p) histogram else histogram)
            pixels [].

(** [max(items, key=lambda kv: kv[1])], [best] being the maximum so far: a
    later item replaces it only when its count is strictly greater. *)
Fixpoint max_by_count (best : color * Z) (items : list (color * Z)) : color * Z :=
  match items with
  | [] => best
  | kv :: rest => max_by_count (if snd best <? snd kv then kv else best) rest
  end.

Definition dominant_color (img : Image) : color :=
  let small := thumbnail (copy img) (64, 64) in
  let pixels := getdata small in
  match count_pixels pixels with
  | [] => (245, 245, 245)
  | kv :: rest => fst (max_by_count kv rest)
  end.

Definition white_pixel (p : pixel) : pixel :=
  let '(r, g, b, a) := p in
  if a =? 0 then (r, g, b, a) else (255, 255, 255, a).

Definition recolor_to_white (logo : Image) : Image :=
  let rgba := copy logo in
  let data := getdata rgba in
  let new_data := map white_pixel data in
  putdata rgba new_data.

(** The size [fit_logo] asks [resize] for. *)
Definition fit_size (size_ : Z * Z) (canvas_size : Z) (max_ratio : float) : res (Z * Z) :=
  t <- int_mul_float canvas_size max_ratio ;;
  target <- int_of_float t ;;
  let '(w, h) := size_ in
  sw <- int_truediv target w ;;
  sh <- int_truediv target h ;;
  let scale := fmin sw sh in
  fw <- int_mul_float w scale ;;
  new_w <- int_of_float fw ;;
  fh <- int_mul_float h scale ;;
  new_h <- int_of_float fh ;;
  Ok (Z.max 1 new_w, Z.max 1 new_h).

Definition fit_logo (logo : Image) (canvas_size : Z) (max_ratio : float) : res Image :=
  new_size <- fit_size (size logo) canvas_size max_ratio ;;
  Ok (resize logo new_size).

(** [rounded_mask]. [Image.new] refuses a negative size, and
    [ImageDraw.rounded_rectangle] a negative radius: the boxes of the corners
    it draws would end before they begin. Both raise [ValueError]. *)
Definition rounded_mask (sz : Z * Z) (radius : Z) : res Band :=
  let '(w, h) := sz in
  if (w <? 0) || (h <? 0) then Raise ValueError
  else if radius <? 0 then Raise ValueError
  else Ok (mkBand (w, h) (rounded_rectangle (w, h) radius)).

End WithPillow.

(** A resampler that copies the nearest source pixel. *)
Definition nearest_resize (im : Image) (sz : Z * Z) : Image :=
  mkImage sz
    (let '(w, h) := size im in
     let '(nw, nh) := sz in
     map (fun i => let x := i mod nw in
                   let y := i / nw in
                   getpixel im (x * w / nw) (y * h / nh))
         (zseq 0 (Z.to_nat (nw * nh)))).

Definition mean_of (l : list Z) : Z :=
  fold_right Z.add 0 l / Z.max 1 (Z.of_nat (List.length l)).

Definition mean_pixel (ps : list pixel) : pixel :=
  (mean_of (map (fun '(r, _, _, _) => r) ps), mean_of (map (fun '(_, g, _, _) => g) ps),
   mean_of (map (fun '(_, _, b, _) => b) ps), mean_of (map (fun '(_, _, _, a) => a) ps)).

(** A resampler that averages, channel by channel, the block of source
    pixels each target pixel covers: the simplest filter that, like Lanczos,
    mixes neighbouring pixels when it shrinks an image. *)
Definition box_resize (im : Image) (sz : Z * Z) : Image :=
  mkImage sz
    (let '(w, h) := size im in
     let '(nw, nh) := sz in
     let bw := Z.max 1 (w / nw) in
     let bh := Z.max 1 (h / nh) in
     let block (x y : Z) : list pixel :=
       flat_map (fun dy => map (fun dx => getpixel im (x * bw + dx) (y * bh + dy))
                               (zseq 0 (Z.to_nat bw)))
                (zseq 0 (Z.to_nat bh)) in
     map (fun i => mean_pixel (block (i mod nw) (i / nw)))
         (zseq 0 (Z.to_nat (nw * nh)))).

(** The size of a thumbnail: the bound, shrunk along one axis to keep the
    aspect ratio, and at least one pixel. *)
Definition shrink_size (sz bound : Z * Z) : Z * Z :=
  let '(w, h) := sz in
  let '(x, y) := bound in
  if x * h <=? y * w then (x, Z.max 1 (h * x / w)) else (Z.max 1 (w * y / h), y).

(** A rounded rectangle over the whole canvas: 255 inside, 0 in the four
    corners outside the quarter circles of the radius. *)
Definition rounded_shape (sz : Z * Z) (radius : Z) : list Z :=
  let '(w, h) := sz in
  let off (v n : Z) : Z := Z.max 0 (Z.max (radius - v) (v - (n - 1 - radius))) in
  map (fun i => let dx := off (i mod w) w in
                let dy := off (i / w) h in
                if dx * dx + dy * dy <=? radius * radius then 255 else 0)
      (zseq 0 (Z.to_nat (w * h))).

(** Pillow with the averaging resampler. *)
Definition box_pillow : Pillow :=
  {| resize := box_resize;
     resize_size := fun _ _ => eq_refl;
     thumbnail_size := shrink_size;
     rounded_rectangle := rounded_shape |}.

(** Pillow with the nearest-pixel resampler. *)
Definition nearest_pillow : Pillow :=
  {| resize := nearest_resize;
     resize_size := fun _ _ => eq_refl;
     thumbnail_size := shrink_size;
     rounded_rectangle := rounded_shape |}.

(** A row of [2 * n] pixels, [p] and [q] in turn. *)
Definition stripes (n : nat) (p q : pixel) : Image :=
  mkImage (Z.of_nat (2 * n), 1) (flat_map (fun _ => [p; q]) (seq 0 n)).

End Img.

(** ** Card generation *)

Module Card.
Import Str Py Color Img.

(** The argument of [ImageStat.Stat]: an image, a histogram given as a
    list, or something else, here a tuple of bands. *)
Inductive stat_arg :=
| AnImage (im : Image)
| AList (h : list Z)
| ATuple (bands : list Band).

(** [im.histogram()]: 256 counts per band. *)
Definition histogram_band (b : Band) : list Z :=
  map (fun j => Z.of_nat (count_occ Z.eq_dec (bdata b) j)) (zseq 0 256).

Definition histogram (im : Image) : list Z := flat_map histogram_band (split im).

(** [ImageStat.Stat(arg)]: the histogram its statistics are computed from.
    Pillow takes the histogram of an image, takes a list as a histogram, and
    raises [TypeError] ("first argument must be image or list") on anything
    else. *)
Definition ImageStat_Stat (arg : stat_arg) : res (list Z) :=
  match arg with
  | AnImage im => Ok (histogram im)
  | AList h => Ok h
  | ATuple _ => Raise TypeError
  end.

(** [stat.mean]: per band of 256 counts, the sum of the values over their
    number. *)
Fixpoint stat_mean (bands : nat) (h : list Z) : res (list float) :=
  match bands with
  | O => Ok []
  | S n =>
      let layer := firstn 256 h in
      let sum := fold_right Z.add 0 (map (fun jc => fst jc * snd jc)
                                         (combine (zseq 0 256) layer)) in
      let count := fold_right Z.add 0 layer in
      m <- int_truediv sum count ;;
      rest <- stat_mean n (skipn 256 h) ;;
      Ok (m :: rest)
  end.

Fixpoint ints_of_floats (l : list float) : res (list Z) :=
  match l with
  | [] => Ok []
  | x :: t => n <- int_of_float x ;; r <- ints_of_floats t ;; Ok (n :: r)
  end.

(** [r, g, b = rgb] on a tuple: [ValueError] unless it has three items. *)
Definition unpack3 (l : list Z) : res color :=
  match l with
  | [r; g; b] => Ok (r, g, b)
  | _ => Raise ValueError
  end.

Section WithLibraries.
Context {pil : Pillow} {lm : Libm}.
#[local] Open Scope float_scope.

(** The lines of [make_card] from the contrast check to the paste of the
    logo, given the average colour of the fitted logo. *)
Definition place_logo (card logo : Image) (avg_rgb bg_rgb : color) (canvas : Z) : res Image :=
  cr <- contrast_ratio avg_rgb bg_rgb ;;
  let logo := if cr <? 2.5 then recolor_to_white logo else logo in
  let '(lw, lh) := size logo in
  let x := ((canvas - lw) / 2)%Z in
  let y := ((canvas - lh) / 2)%Z in
  Ok (paste card logo (x, y) (map alpha_of (getdata logo))).

(** [make_card]; the result is the file written: its path and the card.
    [bg_rgb] is [None] for Python's [None]; a colour is one [Image.new]
    takes, with channels in 0..255. *)
Definition make_card (logo_img : Image) (out_path : pystr) (bg_rgb : option color)
    (canvas radius : Z) : res (pystr * Image) :=
  let bg_rgb := match bg_rgb with None => dominant_color logo_img | Some c => c end in
  card <- Image_new_checked (canvas, canvas) (0, 0, 0, 0)%Z ;;
  bg <- Image_new_checked (canvas, canvas) (let '(r, g, b) := bg_rgb in (r, g, b, 255%Z)) ;;
  mask <- rounded_mask (canvas, canvas) radius ;;
  let card := paste card bg (0, 0)%Z (bdata mask) in
  let logo := copy logo_img in
  logo <- fit_logo logo canvas 0.62 ;;
  h <- ImageStat_Stat (ATuple (firstn 3 (split logo))) ;;
  mean <- stat_mean (Nat.div (List.length h) 256) h ;;
  avg <- ints_of_floats mean ;;
  avg_rgb <- unpack3 avg ;;
  card <- place_logo card logo avg_rgb bg_rgb canvas ;;
  Ok (out_path, card).

End WithLibraries.

(** The logo of scenario A: 100 by 100, opaque, pure red. *)
Definition red : color := (255, 0, 0).
Definition red_logo : Image := Image_new (100, 100) (255, 0, 0, 255).

End Card.

(** ** The batch *)

Module Batch.
Import Str Py Color Img Card.

(** A cell of the spreadsheet: text, or the NaN of an empty cell. *)
Inductive cell := CStr (s : pystr) | CNaN.

(** [str(cell)] *)
Definition str_of_cell (c : cell) : pystr :=
  match c with
  | CStr s => s
  | CNaN => of_ascii "nan"
  end.

Record DataFrame := mkDataFrame {
  columns : list pystr;
  rows : list (pystr -> cell)
}.

Record Args := mkArgs {
  excel : pystr;
  outdir : pystr;
  zipname : pystr;
  radius : Z
}.

(** The network, the decoder and the file system: the content a GET of the
    URL returns (nothing on a failure), the image the bytes decode to, the
    working directory, and the exception that writing the archive at a path
    with the given files raises, if it raises one (the path is a directory,
    its folder is missing, it may not be written). *)
Class World := {
  http_get : pystr -> list Z;
  decode : list Z -> res Image;
  getcwd : pystr;
  zip_error : pystr -> list pystr -> option exn
}.

Inductive line :=
| MissingColumns (missing : list pystr)
| Skip (brand : pystr)
| Done (brand out_path : pystr)
| Err (brand : pystr) (e : exn)
| Summary (n : nat) (zip_path : pystr).

(** What the process does to the outside, in order. *)
Inductive event :=
| Makedirs (path : pystr)
| Get (url : pystr)
| SavePng (path : pystr) (card : Image)
| Print (l : line)
| WriteZip (path : pystr) (entries : list pystr)
| Uncaught (e : exn).

Definition is_output_file (e : event) : bool :=
  match e with
  | SavePng _ _ | WriteZip _ _ => true
  | _ => false
  end.

Definition is_image_work (e : event) : bool :=
  match e with
  | Get _ | SavePng _ _ | WriteZip _ _ => true
  | _ => false
  end.

Definition pystr_eqb (a b : pystr) : bool :=
  if list_eq_dec N.eq_dec a b then true else false.

(** The column names, in Lithuanian: e with a dot above is U+0117, z with a
    caron U+017E. *)
Definition name_col : pystr := of_ascii "Prek" ++ [279%N] ++ of_ascii "s " ++ [382%N] ++ of_ascii "enklas".
Definition bf_col : pystr := of_ascii "Brandfetch (logo)".
Definition cb_col : pystr := of_ascii "Clearbit (logo)".
Definition site_col : pystr := of_ascii "Oficiali svetain" ++ [279%N].

Definition slash : N := 47.

Fixpoint lstrip_char (ch : N) (s : pystr) : pystr :=
  match s with
  | [] => []
  | c :: t => if (c =? ch)%N then lstrip_char ch t else s
  end.

Definition rstrip_char (ch : N) (s : pystr) : pystr := rev (lstrip_char ch (rev s)).

Fixpoint startswith (prefix s : pystr) : bool :=
  match prefix, s with
  | [], _ => true
  | p :: ps, c :: cs => (p =? c)%N && startswith ps cs
  | _ :: _, [] => false
  end.

(** [os.path.join(a, b)] of [posixpath]: an absolute [b] is the result;
    otherwise [b] is appended, after a slash unless [a] is empty or ends
    with one. *)
Definition path_join (a b : pystr) : pystr :=
  if startswith [slash] b then b
  else
    match rev a with
    | [] => b
    | c :: _ => if (c =? slash)%N then a ++ b else a ++ [slash] ++ b
    end.

(** [os.path.basename] *)
Definition basename (p : pystr) : pystr :=
  rev ((fix upto (s : pystr) : pystr :=
          match s with
          | [] => []
          | c :: t => if (c =? slash)%N then [] else c :: upto t
          end) (rev p)).

Section WithWorld.
Context {db : UnicodeDB} {pil : Pillow} {lm : Libm} {world : World}.

(** [missing = [c for c in [...] if c not in df.columns]] *)
Definition missing_columns (df : DataFrame) : list pystr :=
  filter (fun c => negb (existsb (pystr_eqb c) (columns df)))
         [name_col; bf_col; cb_col; site_col].

Definition fetch_bytes (url : pystr) : list Z := http_get url.

Definition open_image_auto (data : list Z) : res Image := decode data.

(** The candidate URLs of a row, in priority order. *)
Definition candidate_urls (row : pystr -> cell) : list pystr :=
  let bf_url := strip (str_of_cell (row bf_col)) in
  let cb_url := strip (str_of_cell (row cb_col)) in
  let site_url := strip (str_of_cell (row site_col)) in
  (match bf_url with [] => [] | _ => [bf_url] end) ++
  (match cb_url with [] => [] | _ => [cb_url] end) ++
  (match site_url with
   | [] => []
   | _ =>
       let favicon := of_ascii "/favicon.ico" in
       [ if startswith (of_ascii "http") site_url
         then rstrip_char slash site_url ++ favicon
         else of_ascii "https://" ++ rstrip_char slash (rstrip_char slash (lstrip_char slash site_url)) ++ favicon ]
   end).

(** The loop over the candidate URLs: the events, and the first image that
    decodes with the URL it came from. *)
Fixpoint first_logo (urls : list pystr) : list event * option (Image * pystr) :=
  match urls with
  | [] => ([], None)
  | u :: rest =>
      let data := fetch_bytes u in
      match data with
      | [] => let '(ev, r) := first_logo rest in (Get u :: ev, r)
      | _ =>
          match open_image_auto data with
          | Ok img => ([Get u], Some (img, u))
          | Raise _ => let '(ev, r) := first_logo rest in (Get u :: ev, r)
          end
      end
  end.

(** One turn of the loop over the rows: its events and, for a card that was
    made, the entry added to [results]. *)
Definition process_row (args : Args) (row : pystr -> cell)
    : list event * option (pystr * pystr * pystr) :=
  let brand := strip (str_of_cell (row name_col)) in
  if match brand with [] => true | _ => false end
     || pystr_eqb (lower brand) (of_ascii "nan")
  then ([], None)
  else
    let brand_slug := slugify brand in
    let out_path := path_join (outdir args) (brand_slug ++ of_ascii ".png") in
    let '(ev, found) := first_logo (candidate_urls row) in
    match found with
    | None => (ev ++ [Print (Skip brand)], None)
    | Some (logo_img, used_url) =>
        let bg := dominant_color logo_img in
        match make_card logo_img out_path (Some bg) 600 (radius args) with
        | Ok (path, card) =>
            (ev ++ [SavePng path card; Print (Done brand out_path)],
             Some (brand, out_path, used_url))
        | Raise e => (ev ++ [Print (Err brand e)], None)
        end
    end.

Fixpoint process_rows (args : Args) (rows_ : list (pystr -> cell))
    : list event * list (pystr * pystr * pystr) :=
  match rows_ with
  | [] => ([], [])
  | row :: rest =>
      let '(ev, r) := process_row args row in
      let '(evs, rs) := process_rows args rest in
      (ev ++ evs, match r with Some x => x :: rs | None => rs end)
  end.

(** [main], after the arguments are parsed and the spreadsheet is read: the
    events of the run and the status the process ends with when [main] does
    not return: the one [sys.exit] was called with, or 1 after an exception
    that nothing catches, which is then the last event. *)
Definition main (args : Args) (df : DataFrame) : list event * option Z :=
  let start := [Makedirs (outdir args)] in
  let missing := missing_columns df in
  match missing with
  | _ :: _ => (start ++ [Print (MissingColumns missing)], Some 1)
  | [] =>
      let '(ev, results) := process_rows args (rows df) in
      let zip_path := path_join getcwd (zipname args) in
      let entries := map (fun r => snd (fst r)) results in
      match zip_error zip_path entries with
      | Some e => (start ++ ev ++ [Uncaught e], Some 1)
      | None =>
          (start ++ ev
           ++ [WriteZip zip_path (map basename entries);
               Print (Summary (List.length results) zip_path)],
           None)
      end
  end.

End WithWorld.

End Batch.


(* ================================================================== *)
(** * Part I, continued: what the further properties are stated with *)
(* ================================================================== *)

(** ** A function [main] does not call *)

Module Url.
Import Str Batch.

(** [ensure_url] *)
Definition ensure_url (url : pystr) : pystr :=
  match url with
  | [] => []
  | _ =>
      if startswith (of_ascii "http://") url || startswith (of_ascii "https://") url
      then url
      else of_ascii "https://" ++ lstrip_char slash url
  end.

(** The events that are downloads. *)
Definition is_get (e : event) : bool :=
  match e with
  | Get _ => true
  | _ => false
  end.

End Url.

(** ** Binary64 numbers as real numbers *)

Module Binary64.
#[local] Open Scope R_scope.

(** The power of two of exponent [e]. *)
Definition bpow2 (e : Z) : R := powerRZ 2 e.

(** The real number a finite float stands for; 0 for the others. *)
Definition F2R (m e : Z) : R := IZR m * bpow2 e.

(** The value of a [spec_float], and of a primitive float. *)
Definition SF2R (f : spec_float) : R :=
  match f with
  | S754_finite s m e => F2R (cond_Zopp s (Zpos m)) e
  | _ => 0
  end.

Definition B2R (x : float) : R := SF2R (Prim2SF x).

(** [inbetween m l y]: the real [y] lies in [[m, m + 1)], at the place the
    location says: on [m], below, on, or above the middle. *)
Definition inbetween (m : Z) (l : location) (y : R) : Prop :=
  match l with
  | loc_Exact => y = IZR m
  | loc_Inexact Lt => IZR m < y < IZR m + / 2
  | loc_Inexact Eq => y = IZR m + / 2
  | loc_Inexact Gt => IZR m + / 2 < y < IZR m + 1
  end.

(** The record of a right shift stands for the real [y]: its mantissa is
    the integer part, its two bits place the rest. *)
Definition describes (mrs : shr_record) (y : R) : Prop :=
  (0 <= shr_m mrs)%Z /\ inbetween (shr_m mrs) (loc_of_shr_record mrs) y.

(** A mantissa of exactly 53 digits. *)
Definition normal (m : positive) : Prop :=
  (4503599627370496 <= Zpos m < 9007199254740992)%Z.

(** [x] is the positive normal float of mantissa [m] and exponent [e]. *)
Definition repr (x : float) (m : positive) (e : Z) : Prop :=
  Prim2SF x = S754_finite false m e /\ normal m.

(** Not NaN and not below zero: a zero of either sign, a positive number or
    plus infinity. *)
Definition nonneg (f : spec_float) : Prop :=
  match f with
  | S754_zero _ | S754_finite false _ _ | S754_infinity false => True
  | _ => False
  end.

End Binary64.

(** ** Counting, fitting, fetching *)

Module Notions.
Import Str Py Color Img Card Batch.

(** The number of counted pixels of colour [k]. *)
Definition occurrences (k : color) (pixels : list pixel) : Z :=
  Z.of_nat (List.length (filter (fun p => counted p && color_eqb (rgb_of p) k) pixels)).

(** [histogram.get(k, 0)] *)
Fixpoint lookup (k : color) (h : list (color * Z)) : Z :=
  match h with
  | [] => 0
  | (k', n) :: rest => if color_eqb k' k then n else lookup k rest
  end.

(** One turn of the loop of [dominant_color] over the pixels. *)
Definition step (histogram : list (color * Z)) (p : pixel) : list (color * Z) :=
  if counted p then incr (rgb_of p) histogram else histogram.

(** The first line of [fit_logo], and the rest of the computation of the
    size. *)
Definition target (canvas_size : Z) (max_ratio : float) : res Z :=
  t <- int_mul_float canvas_size max_ratio ;; int_of_float t.

Definition fit_dims (target w h : Z) : res (Z * Z) :=
  sw <- int_truediv target w ;;
  sh <- int_truediv target h ;;
  let scale := fmin sw sh in
  fw <- int_mul_float w scale ;;
  new_w <- int_of_float fw ;;
  fh <- int_mul_float h scale ;;
  new_h <- int_of_float fh ;;
  Ok (Z.max 1 new_w, Z.max 1 new_h).

Section WithLibm.
Context {lm : Libm}.
#[local] Open Scope float_scope.

(** What the theorems below ask of the C library: a base that is not
    negative, raised to the power 2.4, is not negative (so not NaN
    either). *)
Definition pow_nonneg : Prop :=
  forall x : float, (0 <=? x) = true -> (0 <=? libm_pow x 2.4) = true.

(** The inner [channel] raises nothing on [c] and its value is not negative. *)
Definition channel_good (c : Z) : Prop :=
  match channel c with
  | Ok v => (0 <=? v) = true
  | Raise _ => False
  end.

End WithLibm.

Section WithWorld.
Context {world : World}.

(** A URL fails when nothing comes back or what comes back does not decode. *)
Definition url_fails (u : pystr) : Prop :=
  fetch_bytes u = [] \/ exists e, open_image_auto (fetch_bytes u) = Raise e.

End WithWorld.

End Notions.


(* ================================================================== *)
(** * Part II: properties *)
(* ================================================================== *)

(** ** [slugify] *)

Module SlugFacts.
Import Str.

Section WithDB.
Context {db : UnicodeDB}.

Lemma underscore_isword : isword underscore = true.
Proof. reflexivity. Qed.

Lemma underscore_not_space : isspace underscore = false.
Proof. reflexivity. Qed.

(** After the second substitution no white space is left, and what was
    there before is still there or is an underscore. *)
Lemma sub_spaces_spec (P : N -> Prop) :
  P underscore ->
  forall s in_run, Forall P s ->
  Forall (fun c => P c /\ isspace c = false) (sub_spaces in_run s).
Proof.
  intros HP s; induction s as [|c t IH]; intros in_run Hs; simpl.
  - constructor.
  - inversion Hs as [|? ? Hc Ht]; subst.
    destruct (isspace c) eqn:E.
    + destruct in_run; [apply IH; assumption|].
      constructor; [split; [assumption | apply underscore_not_space] | apply IH; assumption].
    + constructor; [split; assumption | apply IH; assumption].
Qed.

Lemma sub_nonword_keeps s : Forall (fun c => keeps c = true) (sub_nonword s).
Proof.
  unfold sub_nonword. apply Forall_forall. intros c Hc.
  apply filter_In in Hc. tauto.
Qed.

Lemma Forall_lstrip (P : N -> Prop) s : Forall P s -> Forall P (lstrip s).
Proof.
  induction 1 as [|c t Hc Ht IH]; simpl; [constructor|].
  destruct (isspace c); [assumption | constructor; assumption].
Qed.

Lemma Forall_strip (P : N -> Prop) s : Forall P s -> Forall P (strip s).
Proof.
  intros H. unfold strip, rstrip.
  apply Forall_rev, Forall_lstrip, Forall_rev, Forall_lstrip, H.
Qed.

(** What holds of the lower-case mapping of each character, and of the two
    small sigmas, holds of the lower-cased string. *)
Lemma Forall_lower_from (P Q : N -> Prop) :
  (forall c, P c -> c <> capital_sigma -> Forall Q (lower_char c)) ->
  Q final_sigma -> Q small_sigma ->
  forall s b, Forall P s -> Forall Q (lower_from b s).
Proof.
  intros HPQ Hf Hs s. induction s as [|c t IH]; intros b H; simpl; [constructor|].
  inversion H as [|? ? Hc Ht]; subst.
  apply Forall_app. split; [|apply IH, Ht].
  destruct (N.eqb_spec c capital_sigma) as [E|E]; [|apply HPQ; assumption].
  constructor; [|constructor]. destruct (b && negb (cased_ahead t)); assumption.
Qed.

Lemma Forall_lower (P Q : N -> Prop) s :
  (forall c, P c -> c <> capital_sigma -> Forall Q (lower_char c)) ->
  Q final_sigma -> Q small_sigma ->
  Forall P s -> Forall Q (lower s).
Proof. intros HPQ Hf Hs. apply Forall_lower_from; assumption. Qed.

(** Without a capital sigma, each character is mapped on its own. *)
Lemma lower_from_no_sigma s : forall b,
  ~ In capital_sigma s -> lower_from b s = flat_map lower_char s.
Proof.
  induction s as [|c t IH]; intros b H; simpl; [reflexivity|].
  destruct (N.eqb_spec c capital_sigma) as [E|E].
  - exfalso. apply H. left. exact E.
  - f_equal. apply IH. intros Hin. apply H. right. exact Hin.
Qed.

(** Lower-casing leaves an ASCII character that is not a capital as it is. *)
Lemma lower_char_fixed c :
  (c < 128)%N -> ascii_isupper c = false -> lower_char c = [c].
Proof.
  intros Hc Hup. unfold lower_char.
  destruct (N.ltb_spec c 128); [|lia]. rewrite Hup. reflexivity.
Qed.

Lemma In_lower_from c s : forall b,
  (c < 128)%N -> ascii_isupper c = false -> In c s -> In c (lower_from b s).
Proof.
  intros b Hc Hup. revert b. induction s as [|a t IH]; intros b Hin; [destruct Hin|].
  simpl. apply in_or_app. destruct Hin as [->|Hin]; [left | right; apply IH, Hin].
  destruct (N.eqb_spec c capital_sigma) as [E|_]; [subst c; discriminate Hc|].
  rewrite (lower_char_fixed c Hc Hup). left. reflexivity.
Qed.

(** Every character of a lower-cased string is left as it is by
    lower-casing. *)
Lemma lower_stable s : forall b,
  Forall (fun d => lower_char d = [d]) (lower_from b s).
Proof.
  intros b. apply (Forall_lower_from (fun _ => True)); [| | |apply Forall_forall; trivial].
  - intros c _ _. destruct (N.ltb_spec c 128) as [Hc|Hc].
    + destruct (ascii_isupper c) eqn:E.
      * assert (L : lower_char c = [(c + 32)%N]).
        { unfold lower_char. destruct (N.ltb_spec c 128); [|lia]. rewrite E. reflexivity. }
        rewrite L. constructor; [|constructor].
        unfold ascii_isupper, between in E. apply andb_prop in E. destruct E as [E1 E2].
        apply N.leb_le in E1. apply N.leb_le in E2.
        apply lower_char_fixed; [lia|].
        apply andb_false_iff. right. apply N.leb_gt. lia.
      * rewrite (lower_char_fixed c Hc E).
        constructor; [apply lower_char_fixed; assumption | constructor].
    + assert (L : lower_char c = uni_lower c).
      { unfold lower_char. destruct (N.ltb_spec c 128); [lia | reflexivity]. }
      rewrite L. apply Forall_forall. intros d Hd.
      pose proof (uni_lower_stable c d Hc Hd) as S. unfold lower_char.
      destruct (d <? 128)%N; [rewrite S; reflexivity | exact S].
  - unfold lower_char. simpl. apply uni_lower_sigma.
  - unfold lower_char. simpl. apply uni_lower_sigma.
Qed.

(** ASCII stays ASCII under [lower], and loses its capitals. *)
Lemma lower_char_ascii c :
  (c < 128)%N ->
  Forall (fun d => (d < 128)%N /\ ascii_isupper d = false) (lower_char c).
Proof.
  intros Hc. unfold lower_char.
  destruct (N.ltb_spec c 128) as [_|]; [|lia].
  destruct (ascii_isupper c) eqn:E; repeat constructor; trivial.
  - unfold ascii_isupper, between in E.
    apply andb_prop in E. destruct E as [_ E]. apply N.leb_le in E. lia.
  - unfold ascii_isupper, between in *.
    apply andb_prop in E. destruct E as [E1 E2].
    apply N.leb_le in E1. apply N.leb_le in E2.
    apply andb_false_iff. right. apply N.leb_gt. lia.
Qed.

Lemma lower_ascii s :
  Forall (fun c => (c < 128)%N) s ->
  Forall (fun d => (d < 128)%N /\ ascii_isupper d = false) (lower s).
Proof.
  intros H. unfold lower. rewrite lower_from_no_sigma.
  - apply Forall_flat_map. eapply Forall_impl; [|exact H].
    intros c Hc. apply lower_char_ascii, Hc.
  - intros Hin. rewrite Forall_forall in H. apply H in Hin. discriminate Hin.
Qed.

Lemma keeps_ascii_lower c :
  (c < 128)%N -> ascii_isupper c = false -> keeps c = true -> isspace c = false ->
  ascii_slug_char c = true.
Proof.
  intros Hc Hup Hk Hsp. unfold keeps in Hk. rewrite Hsp in Hk.
  unfold isword in Hk. destruct (N.ltb_spec c 128) as [_|]; [|lia].
  rewrite Hup in Hk. unfold ascii_slug_char.
  destruct (ascii_islower c), (ascii_isdigit c), (c =? underscore)%N, (c =? hyphen)%N;
    simpl in *; congruence.
Qed.

Lemma brand_chars :
  Forall (fun c => (isword c || (c =? hyphen)%N) = true /\ isspace c = false
                   /\ ascii_slug_char c = true) (of_ascii "brand").
Proof. repeat constructor. Qed.

Lemma slugify_cases s :
  slugify s = of_ascii "brand" \/
  (slugify s = sub_spaces false (sub_nonword (lower (strip s))) /\ slugify s <> []).
Proof.
  unfold slugify.
  destruct (sub_spaces false (sub_nonword (lower (strip s)))); [left | right; split];
    congruence.
Qed.

Lemma hyphen_survives s : In hyphen (lower (strip s)) -> In hyphen (slugify s).
Proof.
  intros H.
  assert (Hf : In hyphen (sub_nonword (lower (strip s)))).
  { apply filter_In. split; [exact H | reflexivity]. }
  assert (Hs : forall l b, In hyphen l -> In hyphen (sub_spaces b l)).
  { induction l as [|c t IH]; intros b Hin; [destruct Hin|].
    simpl. destruct Hin as [->|Hin].
    - change (isspace hyphen) with false. left. reflexivity.
    - destruct (isspace c); [destruct b|]; simpl; auto. }
  specialize (Hs _ false Hf). unfold slugify.
  destruct (sub_spaces false (sub_nonword (lower (strip s)))); [destruct Hs | exact Hs].
Qed.

Lemma sub_spaces_last c : isspace c = false ->
  forall u b, sub_spaces b (u ++ [c]) = sub_spaces b u ++ [c].
Proof.
  intros Hc. induction u as [|a t IH]; intros b; simpl.
  - rewrite Hc. reflexivity.
  - destruct (isspace a); [destruct b|]; simpl; rewrite IH; reflexivity.
Qed.

(** A character that lower-casing leaves as it is and that the slug may
    hold is, in ASCII, a lower-case letter, a digit, an underscore or a
    hyphen. *)
Lemma stable_ascii_slug_char c :
  (c < 128)%N -> (isword c || (c =? hyphen)%N) = true -> lower_char c = [c] ->
  ascii_slug_char c = true.
Proof.
  intros Hc Hw Hl. unfold lower_char, isword in *.
  destruct (N.ltb_spec c 128); [|lia].
  destruct (ascii_isupper c) eqn:Hup.
  - exfalso. injection Hl as Hl. lia.
  - unfold ascii_slug_char.
    destruct (ascii_islower c), (ascii_isdigit c), (c =? underscore)%N, (c =? hyphen)%N;
      simpl in *; congruence.
Qed.

(** The characters of a slug. *)
Lemma slugify_Forall (s : pystr) :
  Forall (fun c => (isword c || (c =? hyphen)%N) = true /\ isspace c = false /\
                   lower_char c = [c]) (slugify s).
Proof.
  destruct (slugify_cases s) as [E|[E Hne]]; rewrite E.
  - repeat constructor.
  - assert (Hk : Forall (fun c => ((isword c || (c =? hyphen)%N) = true \/ isspace c = true)
                                  /\ lower_char c = [c])
                        (sub_nonword (lower (strip s)))).
    { apply Forall_forall. intros a Ha. unfold sub_nonword in Ha.
      apply filter_In in Ha. destruct Ha as [Hin Hkeep]. split.
      - unfold keeps in Hkeep.
        destruct (isword a), (isspace a), (a =? hyphen)%N; simpl in *; auto; discriminate.
      - pose proof (lower_stable (strip s) false) as L. rewrite Forall_forall in L.
        apply L, Hin. }
    pose proof (sub_spaces_spec _ (conj (or_introl eq_refl) eq_refl) _ false Hk) as H.
    eapply Forall_impl; [|exact H]. simpl.
    intros a [[[Hw|Hsp] Hl] Hns]; [tauto | congruence].
Qed.

(** The slug of an ASCII name is made of lower-case letters, digits,
    underscores and hyphens. *)
Lemma slugify_ascii (s : pystr) :
  Forall (fun c => (c < 128)%N) s -> Forall (fun c => ascii_slug_char c = true) (slugify s).
Proof.
  intros Hascii. apply Forall_forall. intros c Hc.
  pose proof (slugify_Forall s) as H. rewrite Forall_forall in H.
  destruct (H c Hc) as [Hw [Hsp Hl]].
  apply stable_ascii_slug_char; try assumption.
  destruct (slugify_cases s) as [E|[E _]]; rewrite E in Hc.
  - pose proof brand_chars as B. rewrite Forall_forall in B.
    destruct (B c Hc) as [_ [_ B3]].
    unfold ascii_slug_char, ascii_islower, ascii_isdigit, between, underscore, hyphen in B3.
    repeat (apply orb_prop in B3; destruct B3 as [B3|B3]);
      try (apply andb_prop in B3; destruct B3 as [_ B3]; apply N.leb_le in B3; lia);
      apply N.eqb_eq in B3; lia.
  - assert (Hl' : Forall (fun d => (d < 128)%N) (lower (strip s))).
    { eapply Forall_impl; [|apply lower_ascii, Forall_strip, Hascii]. simpl. tauto. }
    assert (Hu : (underscore < 128)%N) by reflexivity.
    assert (Hf : Forall (fun d => (d < 128)%N) (sub_nonword (lower (strip s)))).
    { apply Forall_forall. intros d Hd. unfold sub_nonword in Hd.
      apply filter_In in Hd. rewrite Forall_forall in Hl'. apply Hl', Hd. }
    pose proof (sub_spaces_spec (fun d => (d < 128)%N) Hu _ false Hf) as H'.
    rewrite Forall_forall in H'. apply H', Hc.
Qed.

(** The ends of a slug: a first (last) character of the lower-cased,
    stripped name that the first substitution keeps and that is not white
    space is the first (last) character of the slug. *)
Lemma slugify_first (s : pystr) c t :
  lower (strip s) = c :: t -> keeps c = true -> isspace c = false ->
  exists r, slugify s = c :: r.
Proof.
  intros E Hk Hsp. unfold slugify. rewrite E. unfold sub_nonword. simpl.
  rewrite Hk. simpl. rewrite Hsp. eexists. reflexivity.
Qed.

Lemma slugify_last (s : pystr) c t :
  lower (strip s) = t ++ [c] -> keeps c = true -> isspace c = false ->
  exists r, slugify s = r ++ [c].
Proof.
  intros E Hk Hsp. unfold slugify. rewrite E. unfold sub_nonword.
  rewrite filter_app. simpl. rewrite Hk. rewrite (sub_spaces_last c Hsp).
  destruct (sub_spaces false (filter keeps t) ++ [c]) eqn:E'.
  - destruct (sub_spaces false (filter keeps t)); discriminate.
  - rewrite <- E'. eexists. reflexivity.
Qed.

End WithDB.

(** The slug of the example keeps its hyphen whatever the Unicode database
    says of the trade mark sign. *)
Lemma coca_cola_keeps_hyphen (db : UnicodeDB) : In hyphen (slugify coca_cola).
Proof.
  apply hyphen_survives.
  change (strip coca_cola) with coca_cola.
  apply In_lower_from; [reflexivity | reflexivity |].
  unfold coca_cola. apply in_or_app. left. vm_compute. tauto.
Qed.

(** C2, as the code has it. For every brand name and every Unicode
    database: the slug is not empty; each of its
    characters is a word character (a letter, a digit, the underscore) or a
    hyphen, is not white space, and is left as it is by lower-casing, so that
    one in ASCII is a lower-case letter, a digit, an underscore or a hyphen;
    the slug of an ASCII name is made of these only. The slug begins (ends)
    with the first (last) character of the lower-cased, stripped name when
    that character is kept and is not white space: an underscore is at an
    end of the slug only when it is there in the name or when the name
    begins (ends) with a character that is deleted or replaced. [slugify]
    being a function of its argument, two calls on one name give one
    slug. *)
Theorem slugify_charset (db : UnicodeDB) (s : pystr) :
  slugify s <> [] /\
  (forall c, In c (slugify s) ->
     (isword c || (c =? hyphen)%N) = true /\ isspace c = false /\
     lower_char c = [c] /\ ((c < 128)%N -> ascii_slug_char c = true)) /\
  (Forall (fun c => (c < 128)%N) s -> Forall (fun c => ascii_slug_char c = true) (slugify s)) /\
  (forall c t, lower (strip s) = c :: t -> keeps c = true -> isspace c = false ->
     exists r, slugify s = c :: r) /\
  (forall c t, lower (strip s) = t ++ [c] -> keeps c = true -> isspace c = false ->
     exists r, slugify s = r ++ [c]).
Proof.
  split; [|split; [|split; [|split]]].
  - destruct (slugify_cases s) as [E|[_ Hne]]; [rewrite E; discriminate | exact Hne].
  - intros c Hc. pose proof (slugify_Forall s) as H. rewrite Forall_forall in H.
    destruct (H c Hc) as [Hw [Hsp Hl]].
    split; [exact Hw|]. split; [exact Hsp|]. split; [exact Hl|].
    intros Hlt. apply stable_ascii_slug_char; assumption.
  - apply slugify_ascii.
  - apply slugify_first.
  - apply slugify_last.
Qed.

(** C2 as stated fails twice. Its own example has a hyphen in its slug,
    which is neither a letter, nor a digit, nor an underscore. And a slug can
    begin or end with an underscore: "Acme !" ends in punctuation after a
    blank and gives "acme_", "! Acme" begins with it and gives "_acme",
    and the underscores of "_acme_" are kept. *)
Lemma slugify_claim_fails :
  (@slugify symbols_only coca_cola = of_ascii "coca-cola_lietuva" /\
   In hyphen (@slugify symbols_only coca_cola) /\
   ascii_islower hyphen = false /\ ascii_isdigit hyphen = false /\ hyphen <> underscore) /\
  (@slugify symbols_only (of_ascii "Acme !") = of_ascii "acme_" /\
   last (@slugify symbols_only (of_ascii "Acme !")) 0%N = underscore) /\
  (@slugify symbols_only (of_ascii "! Acme") = of_ascii "_acme" /\
   hd 0%N (@slugify symbols_only (of_ascii "! Acme")) = underscore) /\
  @slugify symbols_only (of_ascii "_acme_") = of_ascii "_acme_".
Proof.
  split; [|split; [|split]].
  - split; [vm_compute; reflexivity|]. split; [apply coca_cola_keeps_hyphen|].
    split; [reflexivity|]. split; [reflexivity | discriminate].
  - split; vm_compute; reflexivity.
  - split; vm_compute; reflexivity.
  - vm_compute. reflexivity.
Qed.

End SlugFacts.

(** ** [recolor_to_white] and [dominant_color] *)

Module ImageFacts.
Import Color Img.

(** *** The recolouring, pixel by pixel *)

Lemma white_pixel_alpha p : alpha_of (white_pixel p) = alpha_of p.
Proof.
  destruct p as [[[r g] b] a]. unfold white_pixel. destruct (a =? 0); reflexivity.
Qed.

Lemma white_pixel_visible p : alpha_of p <> 0 -> rgb_of (white_pixel p) = (255, 255, 255).
Proof.
  destruct p as [[[r g] b] a]. simpl. intros Ha. unfold white_pixel.
  destruct (Z.eqb_spec a 0); [contradiction | reflexivity].
Qed.

Lemma white_pixel_transparent p : alpha_of p = 0 -> white_pixel p = p.
Proof.
  destruct p as [[[r g] b] a]. simpl. intros ->. reflexivity.
Qed.

(** C4: [recolor_to_white] keeps the size of the image and the alpha of
    every pixel; a pixel whose alpha is above 0 becomes white, a pixel whose
    alpha is 0 is left as it is, colour included. *)
Theorem recolor_to_white_spec (logo : Image) :
  size (recolor_to_white logo) = size logo /\
  List.length (getdata (recolor_to_white logo)) = List.length (getdata logo) /\
  forall i p, nth_error (getdata logo) i = Some p ->
    exists q, nth_error (getdata (recolor_to_white logo)) i = Some q /\
              alpha_of q = alpha_of p /\
              (0 < alpha_of p -> rgb_of q = (255, 255, 255)) /\
              (alpha_of p = 0 -> q = p).
Proof.
  unfold recolor_to_white, putdata, copy. simpl.
  split; [reflexivity|]. split; [apply length_map|].
  intros i p Hp. exists (white_pixel p).
  rewrite nth_error_map, Hp. simpl. split; [reflexivity|].
  split; [apply white_pixel_alpha|].
  split; [intros H; apply white_pixel_visible; lia | apply white_pixel_transparent].
Qed.

(** The recolouring of a half transparent pixel, a transparent one and an
    opaque one. *)
Example recolor_to_white_example :
  getdata (recolor_to_white (mkImage (3, 1) [(10, 20, 30, 128); (10, 20, 30, 0); (0, 0, 0, 255)]))
  = [(255, 255, 255, 128); (10, 20, 30, 0); (255, 255, 255, 255)].
Proof. reflexivity. Qed.

(** *** The histogram and its maximum *)

Definition keys (histogram : list (color * Z)) : list color := map fst histogram.

Lemma color_eqb_eq x y : color_eqb x y = true -> x = y.
Proof.
  destruct x as [[r1 g1] b1], y as [[r2 g2] b2]. unfold color_eqb.
  intros H. apply andb_prop in H. destruct H as [H Hb].
  apply andb_prop in H. destruct H as [Hr Hg].
  apply Z.eqb_eq in Hr, Hg, Hb. congruence.
Qed.

Lemma incr_keys key h k : In k (keys (incr key h)) -> k = key \/ In k (keys h).
Proof.
  induction h as [|[k0 n0] t IH]; simpl.
  - intros [<-|[]]. left. reflexivity.
  - destruct (color_eqb k0 key); simpl; intros [<-|H]; auto.
    destruct (IH H); auto.
Qed.

Lemma incr_not_nil key h : incr key h <> [].
Proof.
  destruct h as [|[k0 n0] t]; simpl; [discriminate|].
  destruct (color_eqb k0 key); discriminate.
Qed.

(** Every key of the histogram is the colour of a pixel that was counted. *)
Lemma count_pixels_keys pixels :
  forall h k,
    In k (keys (fold_left (fun histogram p =>
                             if counted p then incr (rgb_of p) histogram else histogram)
                          pixels h)) ->
    In k (keys h) \/ exists p, In p pixels /\ counted p = true /\ rgb_of p = k.
Proof.
  induction pixels as [|p t IH]; simpl; intros h k Hk; [left; exact Hk|].
  destruct (IH _ _ Hk) as [Hin|[q [Hq1 Hq2]]].
  - destruct (counted p) eqn:E; [|left; exact Hin].
    destruct (incr_keys _ _ _ Hin) as [->|Hin']; [|left; exact Hin'].
    right. exists p. auto.
  - right. exists q. auto.
Qed.

(** A pixel that is counted leaves a histogram that is not empty. *)
Lemma count_pixels_not_nil pixels :
  forall h, h <> [] \/ (exists p, In p pixels /\ counted p = true) ->
    fold_left (fun histogram p => if counted p then incr (rgb_of p) histogram else histogram)
              pixels h <> [].
Proof.
  induction pixels as [|p t IH]; simpl; intros h H.
  - destruct H as [H|[p [[] _]]]. exact H.
  - apply IH. destruct (counted p) eqn:E.
    + left. apply incr_not_nil.
    + destruct H as [H|[q [[<-|Hq] Hc]]]; [left; exact H | congruence | right; eauto].
Qed.

(** Pixels that are not counted leave the histogram as it is. *)
Lemma fold_skip pixels :
  (forall p, In p pixels -> counted p = false) ->
  forall h, fold_left (fun histogram p =>
                         if counted p then incr (rgb_of p) histogram else histogram)
                      pixels h = h.
Proof.
  induction pixels as [|p t IH]; simpl; intros H h; [reflexivity|].
  rewrite (H p (or_introl eq_refl)). apply IH. intros q Hq. apply H. right. exact Hq.
Qed.

Lemma max_by_count_in items : forall best,
  max_by_count best items = best \/ In (max_by_count best items) items.
Proof.
  induction items as [|kv t IH]; simpl; intros best; [left; reflexivity|].
  destruct (IH (if snd best <? snd kv then kv else best)) as [E|Hin].
  - rewrite E. destruct (snd best <? snd kv); auto.
  - right. right. exact Hin.
Qed.

(** The maximum has the greatest count: the colour returned is a mode. *)
Lemma max_by_count_max items : forall best kv,
  kv = best \/ In kv items -> snd kv <= snd (max_by_count best items).
Proof.
  induction items as [|x t IH]; simpl; intros best kv H.
  - destruct H as [->|[]]. lia.
  - destruct H as [->|[->|H]].
    + etransitivity; [|apply IH; left; reflexivity].
      destruct (Z.ltb_spec (snd best) (snd x)); lia.
    + etransitivity; [|apply IH; left; reflexivity].
      destruct (Z.ltb_spec (snd best) (snd kv)); lia.
    + apply IH. right. exact H.
Qed.

Section WithPillow.
Context {pil : Pillow}.

Lemma thumbnail_small im x y :
  fst (size im) <= x -> snd (size im) <= y -> thumbnail im (x, y) = im.
Proof.
  unfold thumbnail. destruct (size im) as [w h]. simpl. intros Hw Hh.
  destruct (Z.leb_spec w x); [|lia]. destruct (Z.leb_spec h y); [|lia]. reflexivity.
Qed.

Lemma dominant_color_counted img :
  (exists p, In p (getdata (thumbnail (copy img) (64, 64))) /\ counted p = true) ->
  exists p, In p (getdata (thumbnail (copy img) (64, 64))) /\ counted p = true /\
            dominant_color img = rgb_of p.
Proof.
  intros Hex. unfold dominant_color.
  set (pixels := getdata (thumbnail (copy img) (64, 64))) in *.
  pose proof (count_pixels_not_nil pixels [] (or_intror Hex)) as Hne.
  pose proof (count_pixels_keys pixels []) as Hkeys.
  fold (count_pixels pixels) in Hne, Hkeys.
  destruct (count_pixels pixels) as [|kv rest]; [congruence|].
  destruct (Hkeys (fst (max_by_count kv rest))) as [[]|[p [H1 [H2 H3]]]].
  - unfold keys. apply in_map.
    destruct (max_by_count_in rest kv) as [->|H]; [left; reflexivity | right; exact H].
  - exists p. auto.
Qed.

Lemma dominant_color_fallback img :
  (forall p, In p (getdata (thumbnail (copy img) (64, 64))) -> counted p = false) ->
  dominant_color img = (245, 245, 245).
Proof.
  intros H. unfold dominant_color, count_pixels. rewrite (fold_skip _ H). reflexivity.
Qed.

(** C3, as the code has it: [dominant_color] looks at the thumbnail of the
    image, at most 64 by 64. When a pixel of the thumbnail is counted (alpha
    at least 10, not all three channels above 240), the colour returned is
    the colour of such a pixel of the thumbnail. An image that fits in 64 by
    64 is its own thumbnail, so there the colour is one of the image's own
    pixels. *)
Theorem dominant_color_of_thumbnail (img : Image) :
  ((exists p, In p (getdata (thumbnail (copy img) (64, 64))) /\ counted p = true) ->
   exists p, In p (getdata (thumbnail (copy img) (64, 64))) /\ counted p = true /\
             dominant_color img = rgb_of p) /\
  (fst (size img) <= 64 -> snd (size img) <= 64 ->
   (exists p, In p (getdata img) /\ counted p = true) ->
   exists p, In p (getdata img) /\ counted p = true /\ dominant_color img = rgb_of p).
Proof.
  split; [apply dominant_color_counted|].
  intros Hw Hh Hex. pose proof (dominant_color_counted img) as H.
  unfold copy in H. rewrite (thumbnail_small img 64 64 Hw Hh) in H. apply H, Hex.
Qed.


End WithPillow.

(** C3 as stated fails on an image wider than 64 pixels: 128 opaque pixels,
    red and blue in turn, shrink to 64 pixels that mix the two, and the
    colour returned is the mix, which no pixel of the image has. *)
Lemma dominant_color_blend :
  let img := stripes 64 (255, 0, 0, 255) (0, 0, 255, 255) in
  In (255, 0, 0, 255) (getdata img) /\ counted (255, 0, 0, 255) = true /\
  @dominant_color box_pillow img = (127, 0, 127) /\
  ~ In (127, 0, 127) (map rgb_of (getdata img)).
Proof.
  cbv zeta. split; [left; reflexivity|]. split; [reflexivity|].
  split; [vm_compute; reflexivity|].
  intros H. apply in_map_iff in H. destruct H as [p [Hp Hin]].
  assert (A : Forall (fun p => rgb_of p <> (127, 0, 127))
                     (getdata (stripes 64 (255, 0, 0, 255) (0, 0, 255, 255)))).
  { unfold stripes, getdata. apply Forall_flat_map. apply Forall_forall.
    intros _ _. repeat constructor; discriminate. }
  rewrite Forall_forall in A. exact (A p Hin Hp).
Qed.


(** On small images the two fallbacks and the mode, computed. *)
Example dominant_color_examples :
  @dominant_color box_pillow (Image_new (4, 4) (0, 0, 0, 0)) = (245, 245, 245) /\
  @dominant_color box_pillow (Image_new (4, 4) (255, 250, 241, 255)) = (245, 245, 245) /\
  @dominant_color box_pillow
     (mkImage (3, 2) [(1, 2, 3, 255); (9, 9, 9, 255); (9, 9, 9, 10);
                      (1, 2, 3, 9); (250, 250, 250, 255); (1, 2, 3, 200)]) = (1, 2, 3).
Proof. repeat split; vm_compute; reflexivity. Qed.

End ImageFacts.

(** ** The column check of [main] *)

Module BatchFacts.
Import Str Py Color Img Card Batch.

Lemma pystr_eqb_eq a b : pystr_eqb a b = true <-> a = b.
Proof.
  unfold pystr_eqb. destruct (list_eq_dec N.eq_dec a b); split; congruence.
Qed.

Section WithWorld.
Context {db : UnicodeDB} {pil : Pillow} {lm : Libm} {world : World}.

(** The list printed holds the expected columns the sheet lacks, and only
    those. *)
Lemma missing_columns_spec df c :
  In c (missing_columns df) <->
  In c [name_col; bf_col; cb_col; site_col] /\ ~ In c (columns df).
Proof.
  unfold missing_columns. rewrite filter_In. apply and_iff_compat_l.
  rewrite negb_true_iff. split.
  - intros H Hin. assert (existsb (pystr_eqb c) (columns df) = true); [|congruence].
    apply existsb_exists. exists c. split; [exact Hin | apply pystr_eqb_eq; reflexivity].
  - intros H. destruct (existsb (pystr_eqb c) (columns df)) eqn:E; [|reflexivity].
    apply existsb_exists in E. destruct E as [x [Hx E]].
    apply pystr_eqb_eq in E. subst. contradiction.
Qed.

(** C6: when the sheet lacks one of the four expected columns, [main]
    creates the output directory, prints the list of the missing columns
    once, and exits with status 1: nothing is fetched, no image and no
    archive is written. The list holds exactly the expected columns that are
    not in the sheet. *)
Theorem main_missing_columns (args : Args) (df : DataFrame) :
  (exists c, In c [name_col; bf_col; cb_col; site_col] /\ ~ In c (columns df)) ->
  main args df = ([Makedirs (outdir args); Print (MissingColumns (missing_columns df))], Some 1) /\
  (forall c, In c (missing_columns df) <->
             In c [name_col; bf_col; cb_col; site_col] /\ ~ In c (columns df)) /\
  forallb (fun e => negb (is_image_work e)) (fst (main args df)) = true /\
  filter is_output_file (fst (main args df)) = [].
Proof.
  intros [c Hc]. apply missing_columns_spec in Hc.
  assert (E : main args df
              = ([Makedirs (outdir args); Print (MissingColumns (missing_columns df))], Some 1)).
  { unfold main. destruct (missing_columns df); [destruct Hc | reflexivity]. }
  rewrite E. split; [reflexivity|]. split; [apply missing_columns_spec|].
  split; reflexivity.
Qed.

End WithWorld.

(** A world for the examples: one logo on the network. *)
Definition one_logo_world : World :=
  {| http_get := fun url => if pystr_eqb url (of_ascii "https://cdn.example/acme.png") then [137; 80; 78; 71] else [];
     decode := fun _ => Ok red_logo;
     getcwd := of_ascii "/work";
     zip_error := fun _ _ => None |}.

Definition acme_row (col : pystr) : cell :=
  if pystr_eqb col name_col then CStr (of_ascii "Acme")
  else if pystr_eqb col bf_col then CStr (of_ascii "https://cdn.example/acme.png")
  else CNaN.

Definition default_args : Args :=
  mkArgs (of_ascii "brands.xlsx") (of_ascii "output") (of_ascii "brand_logo_cards.zip") 40.

(** The batch scenario of the specification: a sheet without the column of
    the official site. *)
Definition sheet_without_site : DataFrame :=
  mkDataFrame [name_col; bf_col; cb_col] [acme_row].

Lemma main_missing_columns_witness :
  @main symbols_only box_pillow square_pow one_logo_world default_args sheet_without_site
  = ([Makedirs (of_ascii "output"); Print (MissingColumns [site_col])], Some 1).
Proof.
  pose proof (@main_missing_columns symbols_only box_pillow square_pow one_logo_world
                default_args sheet_without_site) as H.
  destruct H as [H _].
  - exists site_col. split; [vm_compute; tauto|].
    vm_compute. intros [H|[H|[H|[]]]]; discriminate.
  - rewrite H. vm_compute. reflexivity.
Defined.

End BatchFacts.

(** ** Luminance and contrast *)

Module ColorFacts.
Import Py Color.
#[local] Open Scope float_scope.

(** C9: the relative luminance of black is exactly 0.0 and that of white
    exactly 1.0, whatever the C library's [pow] computes: black takes the
    linear branch of the sRGB curve on its three channels, and white raises
    (1.0 + 0.055) / 1.055, which is 1.0 in binary64, to the power 2.4, which
    Python answers 1.0; the three weights then sum to 1.0 exactly. *)
Theorem relative_luminance_black_white (lm : Libm) :
  relative_luminance (0, 0, 0)%Z = Ok 0 /\
  relative_luminance (255, 255, 255)%Z = Ok 1.
Proof. split; vm_compute; reflexivity. Qed.

(** The breakpoint of the curve lies between the channel values 10 and 11. *)
Example channel_linear_upto_10 (lm : Libm) :
  channel 10 = Ok (10 / 255 / 12.92) /\
  channel 11 = Ok (libm_pow ((11 / 255 + 0.055) / 1.055) 2.4).
Proof. split; vm_compute; reflexivity. Qed.

End ColorFacts.


(* ================================================================== *)
(** * Part III: further properties *)
(* ================================================================== *)

(** ** Rounding to binary64: values and errors *)

Module Binary64Facts.
Import Binary64.
#[local] Open Scope R_scope.

Lemma bpow2_pos e : 0 < bpow2 e.
Proof. apply powerRZ_lt. lra. Qed.

Lemma bpow2_add a b : bpow2 (a + b) = bpow2 a * bpow2 b.
Proof. apply powerRZ_add. lra. Qed.

Lemma bpow2_0 : bpow2 0 = 1.
Proof. reflexivity. Qed.

Lemma bpow2_1 : bpow2 1 = 2.
Proof. unfold bpow2. simpl. lra. Qed.

Lemma bpow2_succ e : bpow2 (e + 1) = 2 * bpow2 e.
Proof. rewrite bpow2_add, bpow2_1. lra. Qed.

Lemma bpow2_pred e : bpow2 (e - 1) = bpow2 e / 2.
Proof.
  replace e with ((e - 1) + 1)%Z at 2 by lia. rewrite bpow2_succ. lra.
Qed.

Lemma bpow2_opp e : bpow2 (- e) = / bpow2 e.
Proof. apply powerRZ_neg'. Qed.

Lemma bpow2_nonneg_IZR k : (0 <= k)%Z -> bpow2 k = IZR (2 ^ k).
Proof.
  intros Hk. unfold bpow2. destruct k as [|p|p]; [reflexivity| |lia].
  rewrite <- Zpower_pos_powerRZ. reflexivity.
Qed.

Lemma bpow2_le a b : (a <= b)%Z -> bpow2 a <= bpow2 b.
Proof.
  intros H. replace b with (a + (b - a))%Z by lia.
  rewrite bpow2_add, (bpow2_nonneg_IZR (b - a)) by lia.
  assert (1 <= IZR (2 ^ (b - a))).
  { apply IZR_le. assert (0 < 2 ^ (b - a))%Z by (apply Z.pow_pos_nonneg; lia). lia. }
  pose proof (bpow2_pos a). nra.
Qed.

Lemma bpow2_lt a b : (a < b)%Z -> bpow2 a < bpow2 b.
Proof.
  intros H. apply Rlt_le_trans with (bpow2 (a + 1)).
  - rewrite bpow2_succ. pose proof (bpow2_pos a). lra.
  - apply bpow2_le. lia.
Qed.

Lemma bpow2_lt_inv a b : bpow2 a < bpow2 b -> (a < b)%Z.
Proof.
  intros H. destruct (Z_lt_le_dec a b) as [|Hle]; [assumption|].
  apply bpow2_le in Hle. lra.
Qed.

Lemma bpow2_le_inv a b : bpow2 a <= bpow2 b -> (a <= b)%Z.
Proof.
  intros H. destruct (Z_le_gt_dec a b) as [|Hgt]; [assumption|].
  assert (b < a)%Z as Hlt by lia. apply bpow2_lt in Hlt. lra.
Qed.

(** ** Digits *)

Lemma digits2_size m : digits2_pos m = Pos.size m.
Proof. induction m as [m IH|m IH|]; simpl; congruence. Qed.

Lemma digits2_log2 m : Zpos (digits2_pos m) = (Z.log2 (Zpos m) + 1)%Z.
Proof.
  rewrite digits2_size. destruct m; simpl; rewrite ?Pos2Z.inj_succ; lia.
Qed.

Lemma digits2_bounds m :
  (2 ^ (Zpos (digits2_pos m) - 1) <= Zpos m < 2 ^ Zpos (digits2_pos m))%Z.
Proof.
  rewrite digits2_log2. pose proof (Z.log2_spec (Zpos m) eq_refl) as H.
  replace (Z.log2 (Z.pos m) + 1 - 1)%Z with (Z.log2 (Z.pos m)) by lia.
  exact H.
Qed.

Lemma digits2_unique m d :
  (2 ^ (d - 1) <= Zpos m < 2 ^ d)%Z -> (1 <= d)%Z -> Zpos (digits2_pos m) = d.
Proof.
  intros H Hd. rewrite digits2_log2.
  rewrite (Z.log2_unique (Zpos m) (d - 1)); [lia | lia |].
  replace (Z.succ (d - 1)) with d by lia. exact H.
Qed.

(** ** Shifting a mantissa to the right *)

Lemma inbetween_bounds m l y : inbetween m l y -> IZR m <= y < IZR m + 1.
Proof. destruct l as [|[]]; simpl; lra. Qed.

Lemma loc_of_shr_record_of_loc m l :
  loc_of_shr_record (shr_record_of_loc m l) = l /\ shr_m (shr_record_of_loc m l) = m.
Proof. destruct l as [|[]]; split; reflexivity. Qed.

Lemma IZR_xO p : IZR (Zpos p~0) = 2 * IZR (Zpos p).
Proof. rewrite Pos2Z.inj_xO, mult_IZR. reflexivity. Qed.

Lemma IZR_xI p : IZR (Zpos p~1) = 2 * IZR (Zpos p) + 1.
Proof. rewrite Pos2Z.inj_xI, plus_IZR, mult_IZR. reflexivity. Qed.

Lemma shr_1_describes mrs y : describes mrs y -> describes (shr_1 mrs) (y / 2).
Proof.
  destruct mrs as [m r s]. unfold describes.
  cbn [shr_m shr_r shr_s loc_of_shr_record]. intros [Hm H].
  destruct m as [|p|p]; [| |lia].
  - destruct r, s; cbn [shr_1 shr_m loc_of_shr_record orb inbetween] in *;
      (split; [lia|]); lra.
  - destruct p as [p|p|]; destruct r, s;
      cbn [shr_1 shr_m loc_of_shr_record orb inbetween] in *;
      try rewrite (IZR_xO p) in H; try rewrite (IZR_xI p) in H;
      (split; [lia|]); lra.
Qed.

Lemma iter_shr_1_describes p : forall mrs y,
  describes mrs y -> describes (SpecFloat.iter_pos shr_1 p mrs) (y / bpow2 (Zpos p)).
Proof.
  induction p as [p IH|p IH|]; intros mrs y H; cbn [SpecFloat.iter_pos].
  - replace (y / bpow2 (Zpos p~1)) with (y / 2 / bpow2 (Zpos p) / bpow2 (Zpos p)).
    + apply IH, IH, shr_1_describes, H.
    + rewrite Pos2Z.inj_xI. replace (2 * Z.pos p + 1)%Z with (Z.pos p + Z.pos p + 1)%Z by lia.
      rewrite !bpow2_add, bpow2_1. pose proof (bpow2_pos (Zpos p)). field. lra.
  - replace (y / bpow2 (Zpos p~0)) with (y / bpow2 (Zpos p) / bpow2 (Zpos p)).
    + apply IH, IH, H.
    + rewrite Pos2Z.inj_xO. replace (2 * Z.pos p)%Z with (Z.pos p + Z.pos p)%Z by lia.
      rewrite !bpow2_add. pose proof (bpow2_pos (Zpos p)). field. lra.
  - rewrite bpow2_1. apply shr_1_describes, H.
Qed.

(** [shr] by [n] places, [n] positive or not. *)
Lemma shr_describes mrs e n y :
  describes mrs y ->
  describes (fst (shr mrs e n)) (y / bpow2 (Z.max 0 n)) /\
  snd (shr mrs e n) = (e + Z.max 0 n)%Z.
Proof.
  intros H. destruct n as [|p|p]; cbn [shr fst snd].
  - rewrite Z.max_l, bpow2_0, Z.add_0_r by lia. split; [|reflexivity].
    replace (y / 1) with y by field. exact H.
  - rewrite Z.max_r by lia. split; [|reflexivity]. apply iter_shr_1_describes, H.
  - rewrite Z.max_l, bpow2_0, Z.add_0_r by lia. split; [|reflexivity].
    replace (y / 1) with y by field. exact H.
Qed.

Lemma round_nearest_even_spec m l y :
  inbetween m l y ->
  (round_nearest_even m l = m \/ round_nearest_even m l = (m + 1)%Z) /\
  Rabs (IZR (round_nearest_even m l) - y) <= / 2.
Proof.
  intros H. destruct l as [|[]]; cbn [round_nearest_even inbetween] in *.
  - split; [left; reflexivity|]. subst. rewrite Rminus_diag. rewrite Rabs_R0. lra.
  - destruct (Z.even m); rewrite ?plus_IZR; split; auto; subst y;
      apply Rabs_le; lra.
  - split; [left; reflexivity|]. apply Rabs_le. lra.
  - rewrite plus_IZR. split; [right; reflexivity|]. apply Rabs_le. lra.
Qed.

(** ** Rounding to binary64 in the normal range *)

Lemma Rabs_le_inv x a : Rabs x <= a -> - a <= x <= a.
Proof. unfold Rabs. destruct (Rcase_abs x); lra. Qed.

Lemma describes_of_loc m l y :
  (0 <= m)%Z -> inbetween m l y -> describes (shr_record_of_loc m l) y.
Proof.
  intros Hm H. unfold describes.
  destruct (loc_of_shr_record_of_loc m l) as [-> ->]. split; assumption.
Qed.

Lemma shr_fexp_describes m e l y :
  (0 <= m)%Z -> inbetween m l y ->
  let n := (fexp prec emax (Zdigits2 m + e) - e)%Z in
  describes (fst (shr_fexp prec emax m e l)) (y / bpow2 (Z.max 0 n)) /\
  snd (shr_fexp prec emax m e l) = (e + Z.max 0 n)%Z.
Proof.
  intros Hm H n. unfold shr_fexp. apply shr_describes, describes_of_loc; assumption.
Qed.

Lemma fexp_normal e : (-1074 <= e - 53)%Z -> fexp prec emax e = (e - 53)%Z.
Proof. intros H. unfold fexp, SpecFloat.emin, prec, emax. lia. Qed.

Lemma bpow2_52 : bpow2 52 = 4503599627370496.
Proof. rewrite bpow2_nonneg_IZR by lia. reflexivity. Qed.

Lemma bpow2_53 : bpow2 53 = 9007199254740992.
Proof. rewrite bpow2_nonneg_IZR by lia. reflexivity. Qed.

Lemma IZR_pos_bounds (m : positive) :
  bpow2 (Zpos (digits2_pos m) - 1) <= IZR (Zpos m) /\
  IZR (Zpos m) + 1 <= bpow2 (Zpos (digits2_pos m)).
Proof.
  pose proof (digits2_bounds m) as [H1 H2].
  assert (0 < Zpos (digits2_pos m))%Z by lia.
  rewrite !bpow2_nonneg_IZR by lia. split.
  - apply IZR_le, H1.
  - rewrite <- plus_IZR. apply IZR_le. lia.
Qed.

(** A mantissa in [[2^52, 2^53)] has 53 digits. *)
Lemma digits2_53 (m : positive) :
  (4503599627370496 <= Zpos m < 9007199254740992)%Z -> Zpos (digits2_pos m) = 53%Z.
Proof. intros H. apply digits2_unique; [exact H | lia]. Qed.

Lemma binary_round_aux_normal sx (mx : positive) ex lx (y : R) :
  let d := Zpos (digits2_pos mx) in
  inbetween (Zpos mx) lx y ->
  (53 <= d)%Z -> (-1074 <= d + ex - 53)%Z -> (d + ex <= 1023)%Z ->
  exists m e,
    binary_round_aux prec emax sx (Zpos mx) ex lx = S754_finite sx m e /\
    (4503599627370496 <= Zpos m < 9007199254740992)%Z /\
    (d + ex - 53 <= e <= d + ex - 52)%Z /\
    Rabs (F2R (Zpos m) e - y * bpow2 ex) <= bpow2 e / 2.
Proof.
  intros d Hy Hd Hlo Hhi.
  set (e1 := (d + ex - 53)%Z).
  destruct (shr_fexp_describes (Zpos mx) ex lx y ltac:(lia) Hy) as [D1 E1].
  cbn [Zdigits2] in D1, E1. fold d in D1, E1.
  rewrite (fexp_normal (d + ex)) in D1, E1 by lia.
  replace (d + ex - 53 - ex)%Z with (d - 53)%Z in D1, E1 by lia.
  rewrite Z.max_r in D1, E1 by lia.
  replace (ex + (d - 53))%Z with e1 in E1 by (unfold e1; lia).
  unfold binary_round_aux.
  destruct (shr_fexp prec emax (Zpos mx) ex lx) as [mrs' e']. cbn [fst snd] in D1, E1.
  subst e'. set (y1 := y / bpow2 (d - 53)) in *.
  destruct D1 as [Hm1 Hin1].
  (* the bounds of y1 *)
  assert (Hy1 : 4503599627370496 <= y1 < 9007199254740992).
  { pose proof (inbetween_bounds _ _ _ Hy) as [Ha Hb].
    pose proof (IZR_pos_bounds mx) as [Hc He]. fold d in Hc, He.
    pose proof (bpow2_pos (d - 53)) as Hp.
    replace (d - 1)%Z with (52 + (d - 53))%Z in Hc by lia.
    replace d with (53 + (d - 53))%Z in He at 1 by lia.
    rewrite bpow2_add, bpow2_52 in Hc. rewrite bpow2_add, bpow2_53 in He.
    unfold y1. split.
    - apply Rmult_le_reg_r with (bpow2 (d - 53)); [exact Hp|].
      unfold Rdiv. rewrite Rmult_assoc, Rinv_l by lra. lra.
    - apply Rmult_lt_reg_r with (bpow2 (d - 53)); [exact Hp|].
      unfold Rdiv. rewrite Rmult_assoc, Rinv_l by lra. lra. }
  pose proof (inbetween_bounds _ _ _ Hin1) as [Ha Hb].
  assert (Hm1' : (4503599627370496 <= shr_m mrs' < 9007199254740992)%Z).
  { split.
    - apply Z.lt_succ_r. apply lt_IZR. unfold Z.succ. rewrite plus_IZR. lra.
    - apply lt_IZR. lra. }
  destruct (round_nearest_even_spec _ _ _ Hin1) as [Hr Herr].
  set (mr := round_nearest_even (shr_m mrs') (loc_of_shr_record mrs')) in *.
  assert (Hval : y * bpow2 ex = y1 * bpow2 e1).
  { unfold y1, e1. replace (d + ex - 53)%Z with ((d - 53) + ex)%Z by lia.
    rewrite bpow2_add. pose proof (bpow2_pos (d - 53)). field. lra. }
  destruct (Z.eq_dec mr 9007199254740992) as [Emr|Nmr].
  - (* the mantissa rounds up to 2^53 *)
    rewrite Emr in *. 
    assert (S : shr_fexp prec emax 9007199254740992 e1 loc_Exact
                = (Build_shr_record 4503599627370496 false false, (e1 + 1)%Z)).
    { unfold shr_fexp. cbn [Zdigits2 digits2_pos Pos.succ].
      rewrite (fexp_normal (54 + e1)) by (unfold e1; lia).
      replace (54 + e1 - 53 - e1)%Z with 1%Z by lia. reflexivity. }
    rewrite S. cbn [shr_m].
    replace (e1 + 1 <=? emax - prec)%Z with true
      by (symmetry; apply Z.leb_le; unfold emax, prec, e1; lia).
    exists 4503599627370496%positive, (e1 + 1)%Z.
    split; [reflexivity|]. split; [lia|]. split; [unfold e1; lia|].
    rewrite Hval. unfold F2R. rewrite bpow2_succ.
    apply Rabs_le_inv in Herr. pose proof (bpow2_pos e1). apply Rabs_le. split; nra.
  - (* the mantissa keeps its 53 digits *)
    assert (Hmr : (4503599627370496 <= mr < 9007199254740992)%Z) by lia.
    destruct mr as [|pr|pr] eqn:Epr; [lia| |lia].
    assert (S : shr_fexp prec emax (Zpos pr) e1 loc_Exact
                = (Build_shr_record (Zpos pr) false false, e1)).
    { unfold shr_fexp. cbn [Zdigits2]. rewrite (digits2_53 pr Hmr).
      rewrite (fexp_normal (53 + e1)) by (unfold e1; lia).
      replace (53 + e1 - 53 - e1)%Z with 0%Z by lia. reflexivity. }
    rewrite S. cbn [shr_m].
    replace (e1 <=? emax - prec)%Z with true
      by (symmetry; apply Z.leb_le; unfold emax, prec, e1; lia).
    exists pr, e1. split; [reflexivity|]. split; [exact Hmr|]. split; [unfold e1; lia|].
    rewrite Hval. unfold F2R.
    apply Rabs_le_inv in Herr. pose proof (bpow2_pos e1). apply Rabs_le. split; nra.
Qed.

(** ** Normal numbers *)

Lemma binary_round_aux_exact sx (mx : positive) ex :
  normal mx -> (-1074 <= ex <= 971)%Z ->
  binary_round_aux prec emax sx (Zpos mx) ex loc_Exact = S754_finite sx mx ex.
Proof.
  intros Hm He. unfold binary_round_aux.
  assert (S : forall l, shr_fexp prec emax (Zpos mx) ex l
                        = (shr_record_of_loc (Zpos mx) l, ex)).
  { intros l. unfold shr_fexp. cbn [Zdigits2]. rewrite (digits2_53 mx Hm).
    rewrite (fexp_normal (53 + ex)) by lia.
    replace (53 + ex - 53 - ex)%Z with 0%Z by lia. reflexivity. }
  rewrite S. cbn [shr_record_of_loc shr_m loc_of_shr_record round_nearest_even].
  rewrite S. cbn [shr_record_of_loc shr_m].
  replace (ex <=? emax - prec)%Z with true
    by (symmetry; apply Z.leb_le; unfold emax, prec; lia).
  reflexivity.
Qed.

Lemma valid_normal s m e :
  normal m -> (-1074 <= e <= 971)%Z -> valid_binary (S754_finite s m e) = true.
Proof.
  intros Hm He. unfold SpecFloat.valid_binary, SpecFloat.bounded, SpecFloat.canonical_mantissa.
  rewrite (digits2_53 m Hm), (fexp_normal (53 + e)) by lia.
  apply andb_true_iff. split; [apply Z.eqb_eq; lia | apply Z.leb_le; unfold emax, prec; lia].
Qed.

Lemma F2R_pos m e : 0 < F2R (Zpos m) e.
Proof.
  unfold F2R. apply Rmult_lt_0_compat; [apply IZR_lt; lia | apply bpow2_pos].
Qed.

(** A normal number lies in the binade its exponent names. *)
Lemma normal_bounds m e :
  normal m -> bpow2 (e + 52) <= F2R (Zpos m) e < bpow2 (e + 53).
Proof.
  intros [H1 H2]. unfold F2R.
  rewrite !bpow2_add, bpow2_52, bpow2_53. pose proof (bpow2_pos e).
  apply IZR_le in H1. apply IZR_lt in H2. split; nra.
Qed.

(** *** Multiplication *)

Lemma SFmul_normal sx mx ex sy my ey :
  normal mx -> normal my ->
  (-1074 <= ex + ey + 52)%Z -> (ex + ey + 106 <= 1023)%Z ->
  exists m e,
    SF64mul (S754_finite sx mx ex) (S754_finite sy my ey) = S754_finite (xorb sx sy) m e /\
    normal m /\ (ex + ey + 52 <= e <= ex + ey + 54)%Z /\
    Rabs (F2R (Zpos m) e - F2R (Zpos mx) ex * F2R (Zpos my) ey) <= bpow2 e / 2.
Proof.
  intros Hx Hy Hlo Hhi. unfold SF64mul, SFmul.
  set (d := Zpos (digits2_pos (mx * my))).
  assert (Hd : (105 <= d <= 106)%Z).
  { pose proof (digits2_bounds (mx * my)) as [H1 H2]. fold d in H1, H2.
    unfold normal in Hx, Hy. rewrite Pos2Z.inj_mul in H1, H2.
    assert (A : (2 ^ 104 <= Zpos mx * Zpos my < 2 ^ 106)%Z).
    { change (2 ^ 104)%Z with (4503599627370496 * 4503599627370496)%Z.
      change (2 ^ 106)%Z with (9007199254740992 * 9007199254740992)%Z. nia. }
    assert (0 < d)%Z by (unfold d; lia).
    split.
    - destruct (Z_lt_le_dec d 105) as [Hlt|]; [|assumption]. exfalso.
      assert (2 ^ d <= 2 ^ 104)%Z by (apply Z.pow_le_mono_r; lia). lia.
    - destruct (Z_lt_le_dec 106 d) as [Hlt|]; [|assumption]. exfalso.
      assert (2 ^ 106 <= 2 ^ (d - 1))%Z by (apply Z.pow_le_mono_r; lia). lia. }
  destruct (binary_round_aux_normal (xorb sx sy) (mx * my) (ex + ey) loc_Exact
              (IZR (Zpos (mx * my)))) as [m [e [E [Hm [He Herr]]]]];
    fold d; try lia; [reflexivity|].
  fold d in He. exists m, e. split; [exact E|]. split; [exact Hm|]. split; [lia|].
  replace (F2R (Zpos mx) ex * F2R (Zpos my) ey)
    with (IZR (Zpos (mx * my)) * bpow2 (ex + ey)); [exact Herr|].
  unfold F2R. rewrite Pos2Z.inj_mul, mult_IZR, bpow2_add. ring.
Qed.

(** *** Division *)

Lemma new_location_inbetween q b r :
  (0 < b)%Z -> (0 <= r < b)%Z ->
  inbetween q (new_location b r) (IZR q + IZR r / IZR b).
Proof.
  intros Hb Hr.
  assert (HB : 0 < IZR b) by (apply IZR_lt; lia).
  set (rho := IZR r / IZR b).
  assert (Hrho : rho * IZR b = IZR r) by (unfold rho; field; lra).
  assert (Hlt : forall k : Z, (2 * r < k * b)%Z -> 2 * rho < IZR k).
  { intros k Hk. apply IZR_lt in Hk. rewrite !mult_IZR in Hk.
    apply Rmult_lt_reg_r with (IZR b); [exact HB|]. nra. }
  assert (Hgt : forall k : Z, (k * b < 2 * r)%Z -> IZR k < 2 * rho).
  { intros k Hk. apply IZR_lt in Hk. rewrite !mult_IZR in Hk.
    apply Rmult_lt_reg_r with (IZR b); [exact HB|]. nra. }
  assert (Heq : (2 * r = b)%Z -> 2 * rho = 1).
  { intros Hk. apply (f_equal IZR) in Hk. rewrite mult_IZR in Hk.
    apply Rmult_eq_reg_r with (IZR b); [|lra]. nra. }
  unfold new_location. destruct (Z.even b) eqn:Ev.
  - unfold new_location_even. destruct (Z.eqb_spec r 0) as [E0|Hr0].
    + cbn [inbetween]. subst r. unfold rho. field. lra.
    + pose proof (Hgt 0%Z ltac:(lia)) as Hpos. pose proof (Hlt 2%Z ltac:(lia)) as Hone.
      destruct (Z.compare_spec (2 * r) b) as [E|E|E]; cbn [inbetween].
      * specialize (Heq E). lra.
      * pose proof (Hlt 1%Z ltac:(lia)). lra.
      * pose proof (Hgt 1%Z ltac:(lia)). lra.
  - unfold new_location_odd. destruct (Z.eqb_spec r 0) as [E0|Hr0].
    + cbn [inbetween]. subst r. unfold rho. field. lra.
    + pose proof (Hgt 0%Z ltac:(lia)) as Hpos. pose proof (Hlt 2%Z ltac:(lia)) as Hone.
      assert (Hodd : (2 * r <> b)%Z).
      { intros E. rewrite <- E, Z.even_mul in Ev. discriminate. }
      destruct (Z.compare_spec (2 * r + 1) b) as [E|E|E]; cbn [inbetween].
      * pose proof (Hlt 1%Z ltac:(lia)). lra.
      * pose proof (Hlt 1%Z ltac:(lia)). lra.
      * pose proof (Hgt 1%Z ltac:(lia)). lra.
Qed.

Lemma SFdiv_normal sx mx ex sy my ey :
  normal mx -> normal my ->
  (-1074 <= ex - ey - 53)%Z -> (ex - ey + 1 <= 1023)%Z ->
  exists m e,
    SF64div (S754_finite sx mx ex) (S754_finite sy my ey) = S754_finite (xorb sx sy) m e /\
    normal m /\ (ex - ey - 53 <= e <= ex - ey - 51)%Z /\
    Rabs (F2R (Zpos m) e - F2R (Zpos mx) ex / F2R (Zpos my) ey) <= bpow2 e / 2.
Proof.
  intros Hx Hy Hlo Hhi. unfold SF64div, SFdiv, SFdiv_core_binary.
  cbn [Zdigits2]. rewrite (digits2_53 mx Hx), (digits2_53 my Hy).
  replace (53 + ex - (53 + ey))%Z with (ex - ey)%Z by lia.
  rewrite (fexp_normal (ex - ey)) by lia.
  rewrite Z.min_l by lia.
  replace (ex - ey - (ex - ey - 53))%Z with 53%Z by lia.
  cbv iota.
  pose proof (Z_div_mod_eq_full (Z.shiftl (Zpos mx) 53) (Zpos my)) as Hdiv.
  pose proof (Z.mod_pos_bound (Z.shiftl (Zpos mx) 53) (Zpos my) eq_refl) as Hmod.
  unfold Z.div, Z.modulo in Hdiv, Hmod.
  destruct (Z.div_eucl (Z.shiftl (Zpos mx) 53) (Zpos my)) as [q r].
  rewrite Z.shiftl_mul_pow2 in Hdiv by lia.
  change (2 ^ 53)%Z with 9007199254740992%Z in Hdiv.
  unfold normal in Hx, Hy.
  assert (Hq : (4503599627370496 <= q < 4 * 4503599627370496)%Z) by nia.
  destruct q as [|pq|pq]; [lia| |lia].
  set (d := Zpos (digits2_pos pq)).
  assert (Hd : (53 <= d <= 54)%Z).
  { pose proof (digits2_bounds pq) as [H1 H2]. fold d in H1, H2.
    assert (0 < d)%Z by (unfold d; lia).
    split.
    - destruct (Z_lt_le_dec d 53) as [Hlt|]; [|assumption]. exfalso.
      assert (2 ^ d <= 2 ^ 52)%Z by (apply Z.pow_le_mono_r; lia).
      change (2 ^ 52)%Z with 4503599627370496%Z in *. lia.
    - destruct (Z_lt_le_dec 54 d) as [Hlt|]; [|assumption]. exfalso.
      assert (2 ^ 54 <= 2 ^ (d - 1))%Z by (apply Z.pow_le_mono_r; lia).
      change (2 ^ 54)%Z with (4 * 4503599627370496)%Z in *. lia. }
  destruct (binary_round_aux_normal (xorb sx sy) pq (ex - ey - 53) (new_location (Zpos my) r)
              (IZR (Zpos pq) + IZR r / IZR (Zpos my))) as [m [e [E [Hm [He Herr]]]]];
    fold d; try lia; [apply new_location_inbetween; lia|].
  fold d in He. exists m, e. split; [exact E|]. split; [exact Hm|]. split; [lia|].
  replace (F2R (Zpos mx) ex / F2R (Zpos my) ey)
    with ((IZR (Zpos pq) + IZR r / IZR (Zpos my)) * bpow2 (ex - ey - 53)); [exact Herr|].
  unfold F2R.
  assert (HB : 0 < IZR (Zpos my)) by (apply IZR_lt; lia).
  apply (f_equal IZR) in Hdiv. rewrite plus_IZR, !mult_IZR in Hdiv.
  replace (ex - ey - 53)%Z with (ex + (- ey + - (53)))%Z by lia.
  rewrite !bpow2_add, !bpow2_opp, bpow2_53.
  pose proof (bpow2_pos ex). pose proof (bpow2_pos ey).
  field_simplify_eq; [|lra]. nra.
Qed.

(** *** Integers as floats *)

Lemma shift_pos_value k p : Zpos (Pos.iter xO p k) = (Zpos p * 2 ^ Zpos k)%Z.
Proof.
  change (Pos.iter xO p k) with (shift_pos k p).
  rewrite shift_pos_correct, Z.pow_pos_fold. lia.
Qed.

(** An integer below 2^53 in absolute value, other than 0, is a float,
    exactly. *)
Lemma binary_round_exact (sx : bool) (p : positive) :
  (Zpos p < 9007199254740992)%Z ->
  exists m e,
    binary_round prec emax sx p 0 = S754_finite sx m e /\
    normal m /\ (-52 <= e <= 0)%Z /\ F2R (Zpos m) e = IZR (Zpos p).
Proof.
  intros Hp. unfold binary_round.
  set (d := Zpos (digits2_pos p)).
  pose proof (digits2_bounds p) as [H1 H2]. fold d in H1, H2.
  assert (Hd : (1 <= d <= 53)%Z).
  { split; [unfold d; lia|].
    destruct (Z_lt_le_dec 53 d) as [Hlt|]; [|assumption]. exfalso.
    assert (2 ^ 53 <= 2 ^ (d - 1))%Z by (apply Z.pow_le_mono_r; lia).
    change (2 ^ 53)%Z with 9007199254740992%Z in *. lia. }
  rewrite (fexp_normal (d + 0)) by lia.
  unfold shl_align. replace (d + 0 - 53 - 0)%Z with (d - 53)%Z by lia.
  destruct (d - 53)%Z as [|k|k] eqn:Ek; [| lia |].
  - assert (Hn : normal p).
    { unfold normal. replace d with 53%Z in * by lia.
      change (2 ^ (53 - 1))%Z with 4503599627370496%Z in H1. lia. }
    exists p, 0%Z. split; [apply binary_round_aux_exact; [exact Hn | lia]|].
    split; [exact Hn|]. split; [lia|]. unfold F2R. rewrite bpow2_0. ring.
  - assert (Hk : Zpos k = (53 - d)%Z) by lia.
    assert (Hv : Zpos (Pos.iter xO p k) = (Zpos p * 2 ^ (53 - d))%Z).
    { rewrite shift_pos_value, Hk. reflexivity. }
    assert (Hn : normal (Pos.iter xO p k)).
    { unfold normal. rewrite Hv.
      assert (E52 : (2 ^ (d - 1) * 2 ^ (53 - d) = 4503599627370496)%Z).
      { rewrite <- Z.pow_add_r by lia. replace (d - 1 + (53 - d))%Z with 52%Z by lia.
        reflexivity. }
      assert (E53 : (2 ^ d * 2 ^ (53 - d) = 9007199254740992)%Z).
      { rewrite <- Z.pow_add_r by lia. replace (d + (53 - d))%Z with 53%Z by lia.
        reflexivity. }
      assert (0 < 2 ^ (53 - d))%Z by (apply Z.pow_pos_nonneg; lia). nia. }
    exists (Pos.iter xO p k), (d + 0 - 53)%Z.
    split; [apply binary_round_aux_exact; [exact Hn | lia]|].
    split; [exact Hn|]. split; [lia|].
    unfold F2R. rewrite Hv, mult_IZR.
    replace (d + 0 - 53)%Z with (- (53 - d))%Z by lia.
    rewrite bpow2_opp, (bpow2_nonneg_IZR (53 - d)) by lia.
    assert (0 < IZR (2 ^ (53 - d))).
    { apply IZR_lt. apply Z.pow_pos_nonneg; lia. }
    field. lra.
Qed.

Lemma binary_normalize_exact (p : positive) :
  (Zpos p < 9007199254740992)%Z ->
  exists m e,
    binary_normalize prec emax (Zpos p) 0 false = S754_finite false m e /\
    normal m /\ (-52 <= e <= 0)%Z /\ F2R (Zpos m) e = IZR (Zpos p).
Proof. intros Hp. unfold binary_normalize. apply binary_round_exact, Hp. Qed.

Lemma binary_normalize_neg_exact (p : positive) :
  (Zpos p < 9007199254740992)%Z ->
  exists m e,
    binary_normalize prec emax (Zneg p) 0 false = S754_finite true m e /\
    normal m /\ (-52 <= e <= 0)%Z /\ F2R (Zpos m) e = IZR (Zpos p).
Proof. intros Hp. unfold binary_normalize. apply binary_round_exact, Hp. Qed.

(** *** Truncation *)

Lemma shiftl_floor (m : positive) e :
  (e <= 0)%Z ->
  IZR (Z.shiftl (Zpos m) e) <= F2R (Zpos m) e < IZR (Z.shiftl (Zpos m) e) + 1.
Proof.
  intros He. rewrite Z.shiftl_div_pow2 by lia.
  assert (Hp : (0 < 2 ^ (- e))%Z) by (apply Z.pow_pos_nonneg; lia).
  pose proof (Z_div_mod_eq_full (Zpos m) (2 ^ (- e))) as Hdiv.
  pose proof (Z.mod_pos_bound (Zpos m) (2 ^ (- e)) Hp) as Hmod.
  set (q := (Zpos m / 2 ^ (- e))%Z) in *. set (r := (Zpos m mod 2 ^ (- e))%Z) in *.
  assert (Hb : bpow2 e = / IZR (2 ^ (- e))).
  { rewrite <- (bpow2_nonneg_IZR (- e)), <- bpow2_opp by lia. f_equal. lia. }
  unfold F2R. rewrite Hb.
  assert (HP : 0 < IZR (2 ^ (- e))) by (apply IZR_lt; exact Hp).
  rewrite Hdiv, plus_IZR, mult_IZR.
  destruct Hmod as [Hr1 Hr2]. apply IZR_le in Hr1. apply IZR_lt in Hr2.
  split.
  - apply Rmult_le_reg_r with (IZR (2 ^ (- e))); [exact HP|].
    rewrite Rmult_assoc, Rinv_l by lra. lra.
  - apply Rmult_lt_reg_r with (IZR (2 ^ (- e))); [exact HP|].
    rewrite Rmult_assoc, Rinv_l by lra. lra.
Qed.

(** *** Order *)

Lemma SFltb_normal m1 e1 m2 e2 :
  normal m1 -> normal m2 ->
  if SFltb (S754_finite false m1 e1) (S754_finite false m2 e2)
  then F2R (Zpos m1) e1 < F2R (Zpos m2) e2
  else F2R (Zpos m2) e2 <= F2R (Zpos m1) e1.
Proof.
  intros H1 H2. unfold SFltb, SFcompare.
  pose proof (normal_bounds m1 e1 H1) as [A1 B1].
  pose proof (normal_bounds m2 e2 H2) as [A2 B2].
  destruct (Z.compare_spec e1 e2) as [E|E|E].
  - subst e2. rewrite Pos.compare_cont_spec.
    unfold F2R. pose proof (bpow2_pos e1) as Hp.
    destruct (Pos.compare_spec m1 m2) as [Em|Em|Em]; cbv iota beta delta [Pos.switch_Eq].
    + subst. lra.
    + apply Rmult_lt_compat_r; [exact Hp|]. apply IZR_lt. lia.
    + apply Rmult_le_compat_r; [lra|]. apply IZR_le. lia.
  - assert (bpow2 (e1 + 53) <= bpow2 (e2 + 52)) by (apply bpow2_le; lia). lra.
  - assert (bpow2 (e2 + 53) <= bpow2 (e1 + 52)) by (apply bpow2_le; lia). lra.
Qed.

End Binary64Facts.

(** ** Signs of binary64 results *)

Module FloatSign.
Import Binary64.

Lemma leb_0_nonneg (x : float) : (0 <=? x)%float = true <-> nonneg (Prim2SF x).
Proof.
  rewrite leb_spec. change (Prim2SF 0) with (S754_zero false).
  destruct (Prim2SF x) as [s|s| |s m e]; simpl; try destruct s; simpl;
    intuition discriminate.
Qed.

Lemma shr_1_nonneg mrs : 0 <= shr_m mrs -> 0 <= shr_m (shr_1 mrs).
Proof.
  destruct mrs as [m r s]. simpl. intros H.
  destruct m as [|p|p]; [simpl; lia | | lia]. destruct p; simpl; lia.
Qed.

Lemma iter_shr_1_nonneg p : forall mrs, 0 <= shr_m mrs -> 0 <= shr_m (SpecFloat.iter_pos shr_1 p mrs).
Proof.
  induction p as [p IH|p IH|]; intros mrs H; simpl.
  - apply IH, IH, shr_1_nonneg, H.
  - apply IH, IH, H.
  - apply shr_1_nonneg, H.
Qed.

Lemma shr_fexp_nonneg m e l :
  0 <= m -> 0 <= shr_m (fst (shr_fexp prec emax m e l)).
Proof.
  intros H. unfold shr_fexp, shr.
  assert (H0 : 0 <= shr_m (shr_record_of_loc m l)) by (destruct l as [|[]]; exact H).
  destruct (fexp prec emax (Zdigits2 m + e) - e); simpl; auto using iter_shr_1_nonneg.
Qed.

Lemma round_nearest_even_nonneg m l : 0 <= m -> 0 <= round_nearest_even m l.
Proof.
  intros H. destruct l as [|[]]; simpl; try lia. destruct (Z.even m); lia.
Qed.

(** Rounding a non-negative mantissa keeps the sign given and yields no NaN. *)
Lemma binary_round_aux_sign sx mx ex lx :
  0 <= mx ->
  match binary_round_aux prec emax sx mx ex lx with
  | S754_zero s | S754_infinity s | S754_finite s _ _ => s = sx
  | S754_nan => False
  end.
Proof.
  intros H. unfold binary_round_aux.
  pose proof (shr_fexp_nonneg mx ex lx H) as H1.
  destruct (shr_fexp prec emax mx ex lx) as [mrs' e']. simpl in H1.
  pose proof (shr_fexp_nonneg _ e' loc_Exact
                (round_nearest_even_nonneg _ (loc_of_shr_record mrs') H1)) as H2.
  destruct (shr_fexp prec emax _ e' loc_Exact) as [mrs'' e'']. simpl in H2.
  destruct (shr_m mrs'') as [|p|p]; [reflexivity | | lia].
  destruct (e'' <=? emax - prec); reflexivity.
Qed.

Lemma binary_round_aux_nonneg mx ex lx :
  0 <= mx -> nonneg (binary_round_aux prec emax false mx ex lx).
Proof.
  intros H. pose proof (binary_round_aux_sign false mx ex lx H) as S.
  destruct (binary_round_aux prec emax false mx ex lx); simpl in *; subst; tauto.
Qed.

Lemma binary_round_nonneg m e : nonneg (binary_round prec emax false m e).
Proof.
  unfold binary_round. destruct (shl_align m e _) as [mz ez].
  apply binary_round_aux_nonneg. lia.
Qed.

Lemma SFadd_nonneg x y : nonneg x -> nonneg y -> nonneg (SF64add x y).
Proof.
  unfold SF64add, SFadd.
  destruct x as [sx|sx| |sx mx ex], y as [sy|sy| |sy my ey];
    try destruct sx; try destruct sy; simpl; try tauto.
  intros _ _. apply binary_round_nonneg.
Qed.

Lemma SFmul_nonneg_finite mc ec x :
  nonneg x -> nonneg (SF64mul (S754_finite false mc ec) x).
Proof.
  unfold SF64mul, SFmul. destruct x as [sx|sx| |sx mx ex]; simpl; try tauto.
  destruct sx; simpl; try tauto. intros _. apply binary_round_aux_nonneg. lia.
Qed.

Lemma SFmul_nonneg_self x : nonneg x -> nonneg (SF64mul x x).
Proof.
  unfold SF64mul, SFmul. destruct x as [sx|sx| |sx mx ex]; simpl; try tauto.
  - destruct sx; simpl; tauto.
  - destruct sx; simpl; try tauto. intros _. apply binary_round_aux_nonneg. lia.
Qed.

Lemma SFdiv_nonneg_finite x mc ec :
  nonneg x -> nonneg (SF64div x (S754_finite false mc ec)).
Proof.
  unfold SF64div, SFdiv. destruct x as [sx|sx| |sx mx ex]; simpl; try tauto.
  - destruct sx; simpl; tauto.
  - destruct sx; simpl; try tauto. intros _.
    unfold SFdiv_core_binary.
    set (m' := match _ - _ - _ with Z0 => Zpos mx | Zpos _ => _ | Zneg _ => 0 end).
    assert (Hm : 0 <= m').
    { subst m'. destruct (_ - _ - _); try lia. apply Z.shiftl_nonneg. lia. }
    pose proof (Z.div_pos m' (Zpos mc) Hm eq_refl) as Hq.
    unfold Z.div in Hq. destruct (Z.div_eucl m' (Zpos mc)) as [q r]. simpl in Hq.
    apply binary_round_aux_nonneg. exact Hq.
Qed.

(** *** Comparisons *)

Lemma SFcompare_antisym x y :
  SFcompare y x = option_map CompOpp (SFcompare x y).
Proof.
  destruct x as [sx|sx| |sx mx ex], y as [sy|sy| |sy my ey]; simpl; try reflexivity;
    try (destruct sx; reflexivity); try (destruct sy; reflexivity);
    try (destruct sx, sy; reflexivity).
  assert (Hm : Pos.compare_cont Eq my mx = CompOpp (Pos.compare_cont Eq mx my)).
  { rewrite (Pos.compare_cont_antisym mx my Eq). reflexivity. }
  destruct sx, sy; simpl; try reflexivity;
    rewrite (Z.compare_antisym ex ey); destruct (ex ?= ey); simpl; try reflexivity;
    rewrite Hm, ?CompOpp_involutive; reflexivity.
Qed.

Lemma SFltb_asym x y : SFltb x y = true -> SFltb y x = false.
Proof.
  unfold SFltb. rewrite (SFcompare_antisym x y).
  destruct (SFcompare x y) as [[]|]; simpl; congruence.
Qed.

(** Two numbers of which neither is below the other are the same number or
    two zeros. *)
Lemma SFcompare_Eq x y :
  SFcompare x y = Some Eq ->
  x = y \/ (exists s s', x = S754_zero s /\ y = S754_zero s').
Proof.
  destruct x as [sx|sx| |sx mx ex], y as [sy|sy| |sy my ey]; simpl; try discriminate;
    try (destruct sx; discriminate); try (destruct sy; discriminate).
  - intros _. right. eauto.
  - destruct sx, sy; try discriminate; intros _; left; reflexivity.
  - destruct sx, sy; try discriminate.
    + destruct (Z.compare_spec ex ey); try discriminate. subst.
      destruct (Pos.compare_cont Eq mx my) eqn:E; try discriminate.
      apply Pos.compare_eq in E. subst. left. reflexivity.
    + destruct (Z.compare_spec ex ey); try discriminate. subst.
      destruct (Pos.compare_cont Eq mx my) eqn:E; try discriminate.
      apply Pos.compare_eq in E. subst. left. reflexivity.
Qed.

Lemma not_ltb_either x y :
  x <> S754_nan -> y <> S754_nan -> SFltb x y = false -> SFltb y x = false ->
  SFcompare x y = Some Eq.
Proof.
  unfold SFltb. rewrite (SFcompare_antisym x y).
  destruct (SFcompare x y) as [[]|] eqn:E; simpl; try congruence.
  intros Hx Hy _ _. exfalso.
  destruct x as [sx|sx| |sx mx ex], y as [sy|sy| |sy my ey]; simpl in E;
    try congruence; try (destruct sx; discriminate); try (destruct sy; discriminate);
    try (destruct sx, sy; discriminate).
Qed.

End FloatSign.

(** ** More on [slugify] *)

Module SlugMore.
Import Str SlugFacts.

Section WithDB.
Context {db : UnicodeDB}.

Lemma lstrip_fixed s : Forall (fun c => isspace c = false) s -> lstrip s = s.
Proof. intros H. destruct H as [|c t Hc _]; simpl; [|rewrite Hc]; reflexivity. Qed.

Lemma strip_fixed s : Forall (fun c => isspace c = false) s -> strip s = s.
Proof.
  intros H. unfold strip, rstrip. rewrite (lstrip_fixed s H).
  rewrite lstrip_fixed by (apply Forall_rev, H). apply rev_involutive.
Qed.

Lemma lower_fixed s :
  Forall (fun c => (c < 128)%N /\ ascii_isupper c = false) s -> lower s = s.
Proof.
  intros H. unfold lower. rewrite lower_from_no_sigma.
  - induction H as [|c t [Hc Hup] _ IH]; simpl; [reflexivity|].
    rewrite IH, (lower_char_fixed c Hc Hup). reflexivity.
  - intros Hin. rewrite Forall_forall in H. apply H in Hin.
    destruct Hin as [Hin _]. discriminate Hin.
Qed.

Lemma sub_nonword_fixed s : Forall (fun c => keeps c = true) s -> sub_nonword s = s.
Proof.
  unfold sub_nonword. induction 1 as [|c t Hc _ IH]; simpl; [reflexivity|].
  rewrite Hc, IH. reflexivity.
Qed.

Lemma sub_spaces_fixed s :
  Forall (fun c => isspace c = false) s -> forall b, sub_spaces b s = s.
Proof.
  induction 1 as [|c t Hc _ IH]; intros b; simpl; [reflexivity|].
  rewrite Hc, IH. reflexivity.
Qed.

(** What a character of an ASCII slug is to the passes of [slugify]. *)
Lemma ascii_slug_char_spec c :
  ascii_slug_char c = true ->
  (c < 128)%N /\ ascii_isupper c = false /\ isspace c = false /\ keeps c = true.
Proof.
  unfold ascii_slug_char, keeps, isspace, isword, ascii_islower, ascii_isupper,
    ascii_isdigit, ascii_isspace, between, underscore, hyphen.
  intros H.
  assert (Hr : (97 <= c <= 122 \/ 48 <= c <= 57 \/ c = 95 \/ c = 45)%N).
  { repeat (apply orb_prop in H; destruct H as [H|H]).
    - apply andb_prop in H. destruct H as [H1 H2].
      apply N.leb_le in H1, H2. lia.
    - apply andb_prop in H. destruct H as [H1 H2].
      apply N.leb_le in H1, H2. lia.
    - apply N.eqb_eq in H. lia.
    - apply N.eqb_eq in H. lia. }
  assert (Hc : (c < 128)%N) by lia.
  destruct (N.ltb_spec c 128) as [_|]; [|lia].
  repeat split; [exact Hc | | |];
    repeat match goal with
           | |- context [N.leb ?a ?b] => destruct (N.leb_spec a b)
           | |- context [N.eqb ?a ?b] => destruct (N.eqb_spec a b)
           end; simpl; try reflexivity; lia.
Qed.

(** A string made of slug characters is its own slug. *)
Lemma slugify_fixed s :
  s <> [] -> Forall (fun c => ascii_slug_char c = true) s -> slugify s = s.
Proof.
  intros Hne H.
  assert (H1 : Forall (fun c => isspace c = false) s).
  { eapply Forall_impl; [|exact H]. intros c Hc. apply ascii_slug_char_spec in Hc. tauto. }
  assert (H2 : Forall (fun c => (c < 128)%N /\ ascii_isupper c = false) s).
  { eapply Forall_impl; [|exact H]. intros c Hc. apply ascii_slug_char_spec in Hc. tauto. }
  assert (H3 : Forall (fun c => keeps c = true) s).
  { eapply Forall_impl; [|exact H]. intros c Hc. apply ascii_slug_char_spec in Hc. tauto. }
  unfold slugify. rewrite (strip_fixed s H1), (lower_fixed s H2), (sub_nonword_fixed s H3).
  rewrite (sub_spaces_fixed s H1). destruct s; congruence.
Qed.

(** The characters of a slug: word characters and hyphens, no white space;
    lower-case letters, digits, underscores and hyphens for an ASCII name. *)
Lemma slugify_chars (s : pystr) :
  slugify s <> [] /\
  (forall c, In c (slugify s) -> (isword c || (c =? hyphen)%N) = true /\ isspace c = false) /\
  (Forall (fun c => (c < 128)%N) s -> Forall (fun c => ascii_slug_char c = true) (slugify s)).
Proof.
  split; [|split].
  - destruct (slugify_cases s) as [E|[_ Hne]]; [rewrite E; discriminate | exact Hne].
  - intros c Hc. pose proof (slugify_Forall s) as H. rewrite Forall_forall in H.
    destruct (H c Hc) as [Hw [Hsp _]]. split; assumption.
  - apply slugify_ascii.
Qed.

(** [slugify] is idempotent on ASCII names: the slug of a slug is the slug
    itself, so a name that went through [slugify] once is stable. *)
Theorem slugify_idempotent (s : pystr) :
  Forall (fun c => (c < 128)%N) s -> slugify (slugify s) = slugify s.
Proof.
  intros H. destruct (slugify_chars s) as [Hne [_ Hascii]].
  apply slugify_fixed; [exact Hne | apply Hascii, H].
Qed.

(** A slug holds no path separator and no dot, whatever the name and the
    Unicode database: the file name built from it stays in the output
    directory and has the one extension the code appends. *)
Theorem slugify_no_separator (s : pystr) :
  ~ In 47%N (slugify s) /\ ~ In 92%N (slugify s) /\ ~ In 46%N (slugify s) /\ ~ In 0%N (slugify s).
Proof.
  destruct (slugify_chars s) as [_ [H _]].
  repeat split; intros Hin; apply H in Hin; destruct Hin as [Hin _]; discriminate Hin.
Qed.

End WithDB.

Lemma slugify_idempotent_witness :
  @slugify symbols_only (@slugify symbols_only (of_ascii "  Acme & Sons, Ltd. "))
  = @slugify symbols_only (of_ascii "  Acme & Sons, Ltd. ").
Proof.
  apply (@slugify_idempotent symbols_only). vm_compute. repeat constructor.
Defined.

End SlugMore.

(** ** More on [recolor_to_white] and [dominant_color] *)

Module ImageMore.
Import Color Img ImageFacts Notions.

(** *** Recolouring twice, and the dominant colour of a recoloured logo *)

Lemma white_pixel_idempotent p : white_pixel (white_pixel p) = white_pixel p.
Proof.
  destruct p as [[[r g] b] a]. unfold white_pixel.
  destruct (Z.eqb_spec a 0) as [->|Ha]; [reflexivity|].
  destruct (Z.eqb_spec a 0); [contradiction | reflexivity].
Qed.

Lemma white_pixel_not_counted p : counted (white_pixel p) = false.
Proof.
  destruct p as [[[r g] b] a]. unfold white_pixel.
  destruct (Z.eqb_spec a 0) as [->|Ha]; [reflexivity|].
  unfold counted. apply andb_false_r.
Qed.

(** [recolor_to_white] is idempotent. *)
Theorem recolor_to_white_idempotent (logo : Image) :
  recolor_to_white (recolor_to_white logo) = recolor_to_white logo.
Proof.
  unfold recolor_to_white, putdata, copy. simpl. f_equal.
  rewrite map_map. apply map_ext. intros p. apply white_pixel_idempotent.
Qed.

(** *** The histogram counts, and the colour returned is a mode *)

Lemma color_eqb_refl k : color_eqb k k = true.
Proof. destruct k as [[r g] b]. unfold color_eqb. rewrite !Z.eqb_refl. reflexivity. Qed.

Lemma color_eqb_neq x y : color_eqb x y = false -> x <> y.
Proof. intros H E. subst. rewrite color_eqb_refl in H. discriminate. Qed.

Lemma color_eqb_sym x y : color_eqb x y = color_eqb y x.
Proof.
  destruct (color_eqb x y) eqn:E.
  - apply color_eqb_eq in E. subst. symmetry. apply color_eqb_refl.
  - destruct (color_eqb y x) eqn:E'; [|reflexivity].
    apply color_eqb_eq in E'. subst. rewrite color_eqb_refl in E. discriminate.
Qed.

Lemma color_eq_dec (x y : color) : {x = y} + {x <> y}.
Proof. repeat decide equality. Qed.

Lemma lookup_incr key h k :
  lookup k (incr key h) = lookup k h + (if color_eqb key k then 1 else 0).
Proof.
  induction h as [|[k0 n0] t IH]; simpl.
  - destruct (color_eqb key k); reflexivity.
  - destruct (color_eqb k0 key) eqn:E; simpl.
    + apply color_eqb_eq in E. subst k0. destruct (color_eqb key k); lia.
    + destruct (color_eqb k0 k) eqn:E2; [|exact IH].
      apply color_eqb_eq in E2. subst k0. rewrite color_eqb_sym, E. lia.
Qed.

Lemma incr_NoDup key h : NoDup (keys h) -> NoDup (keys (incr key h)).
Proof.
  induction h as [|[k0 n0] t IH]; simpl; intros H.
  - constructor; [intros []| constructor].
  - inversion H as [|? ? Hnin Hnd]; subst.
    destruct (color_eqb k0 key) eqn:E; simpl; [constructor; assumption|].
    constructor; [|apply IH, Hnd].
    intros Hin. apply incr_keys in Hin. destruct Hin as [->|Hin]; [|contradiction].
    rewrite color_eqb_refl in E. discriminate.
Qed.

Lemma incr_count_positive key h :
  Forall (fun kv => 0 < snd kv) h -> Forall (fun kv => 0 < snd kv) (incr key h).
Proof.
  induction 1 as [|[k0 n0] t Hk Ht IH]; simpl.
  - repeat constructor.
  - destruct (color_eqb k0 key); constructor; simpl in *; try lia; assumption.
Qed.

Lemma fold_step_spec pixels : forall h,
  NoDup (keys h) -> Forall (fun kv => 0 < snd kv) h ->
  let h' := fold_left step pixels h in
  NoDup (keys h') /\ Forall (fun kv => 0 < snd kv) h' /\
  forall k, lookup k h' = lookup k h + occurrences k pixels.
Proof.
  induction pixels as [|p t IH]; intros h Hnd Hpos; simpl.
  - repeat split; try assumption. intros k. unfold occurrences. simpl. lia.
  - assert (Hs : NoDup (keys (step h p)) /\ Forall (fun kv => 0 < snd kv) (step h p)).
    { unfold step. destruct (counted p); split; auto using incr_NoDup, incr_count_positive. }
    destruct Hs as [Hs1 Hs2]. destruct (IH _ Hs1 Hs2) as [A [B C]].
    repeat split; try assumption. intros k. rewrite C.
    unfold occurrences, step. simpl. destruct (counted p); simpl.
    + rewrite lookup_incr. destruct (color_eqb (rgb_of p) k); simpl;
        rewrite ?Nat2Z.inj_succ; lia.
    + lia.
Qed.

Lemma lookup_in k n h : NoDup (keys h) -> In (k, n) h -> lookup k h = n.
Proof.
  induction h as [|[k0 n0] t IH]; simpl; intros Hnd Hin; [destruct Hin|].
  inversion Hnd as [|? ? Hnin Hnd']; subst.
  destruct Hin as [E|Hin].
  - inversion E; subst. rewrite color_eqb_refl. reflexivity.
  - destruct (color_eqb k0 k) eqn:E; [|apply IH; assumption].
    apply color_eqb_eq in E. subst. exfalso. apply Hnin.
    unfold keys. change k with (fst (k, n)). apply in_map, Hin.
Qed.

Lemma lookup_not_in k h : ~ In k (keys h) -> lookup k h = 0.
Proof.
  induction h as [|[k0 n0] t IH]; simpl; intros H; [reflexivity|].
  destruct (color_eqb k0 k) eqn:E.
  - apply color_eqb_eq in E. subst. exfalso. apply H. left. reflexivity.
  - apply IH. intros Hin. apply H. right. exact Hin.
Qed.

Lemma lookup_le_max h kv rest k :
  h = kv :: rest -> NoDup (keys h) -> Forall (fun kv => 0 < snd kv) h ->
  lookup k h <= snd (max_by_count kv rest).
Proof.
  intros -> Hnd Hpos.
  destruct (in_dec color_eq_dec k (keys (kv :: rest))) as [Hin|Hnin].
  - unfold keys in Hin. apply in_map_iff in Hin. destruct Hin as [[k' n] [E Hin]].
    simpl in E. subst k'. rewrite (lookup_in k n _ Hnd Hin).
    change n with (snd (k, n)). apply max_by_count_max.
    destruct Hin as [<-|Hin]; [left; reflexivity | right; exact Hin].
  - rewrite (lookup_not_in _ _ Hnin).
    inversion Hpos as [|? ? Hkv Hrest]; subst.
    pose proof (max_by_count_max rest kv kv (or_introl eq_refl)). lia.
Qed.

Section WithPillow.
Context {pil : Pillow}.

(** [dominant_color] returns a mode: when a pixel of the thumbnail is
    counted, no colour has more counted pixels in the thumbnail than the
    colour returned, which has at least one. *)
Theorem dominant_color_is_mode (img : Image) :
  let pixels := getdata (thumbnail (copy img) (64, 64)) in
  (exists p, In p pixels /\ counted p = true) ->
  0 < occurrences (dominant_color img) pixels /\
  forall k, occurrences k pixels <= occurrences (dominant_color img) pixels.
Proof.
  intros pixels Hex. unfold dominant_color. fold pixels.
  pose proof (count_pixels_not_nil pixels [] (or_intror Hex)) as Hne.
  destruct (fold_step_spec pixels [] (NoDup_nil _) (Forall_nil _)) as [Hnd [Hpos Hl]].
  change (fold_left step pixels []) with (count_pixels pixels) in Hnd, Hpos, Hl.
  change (fold_left _ pixels []) with (count_pixels pixels) in Hne.
  simpl in Hl.
  destruct (count_pixels pixels) as [|kv rest] eqn:E; [congruence|].
  assert (Hin : In (max_by_count kv rest) (kv :: rest)).
  { destruct (max_by_count_in rest kv) as [->|H]; [left; reflexivity | right; exact H]. }
  assert (Hbest : lookup (fst (max_by_count kv rest)) (kv :: rest) = snd (max_by_count kv rest)).
  { apply lookup_in; [exact Hnd|]. destruct (max_by_count kv rest). exact Hin. }
  rewrite Hl in Hbest. split.
  - rewrite Hbest. rewrite Forall_forall in Hpos. apply Hpos, Hin.
  - intros k. rewrite Hbest, <- Hl. eapply lookup_le_max; eauto.
Qed.

(** A recoloured logo has no dominant colour: every visible pixel of it is
    white, so none is counted, and an image within 64 by 64 gets the grey
    fallback. *)
Theorem dominant_color_of_recolored (logo : Image) :
  fst (size logo) <= 64 -> snd (size logo) <= 64 ->
  dominant_color (recolor_to_white logo) = (245, 245, 245).
Proof.
  intros Hw Hh.
  apply dominant_color_fallback.
  unfold copy. rewrite (thumbnail_small (recolor_to_white logo) 64 64 Hw Hh).
  intros p Hp. unfold recolor_to_white, putdata, copy in Hp. simpl in Hp.
  apply in_map_iff in Hp. destruct Hp as [q [<- _]]. apply white_pixel_not_counted.
Qed.

End WithPillow.

Lemma dominant_color_is_mode_witness :
  let img := mkImage (3, 2) [(1, 2, 3, 255); (9, 9, 9, 255); (9, 9, 9, 10);
                             (1, 2, 3, 9); (250, 250, 250, 255); (9, 9, 9, 200)] in
  0 < occurrences (@dominant_color box_pillow img) (getdata img) /\
  forall k, occurrences k (getdata img) <= occurrences (@dominant_color box_pillow img) (getdata img).
Proof.
  cbv zeta.
  apply (@dominant_color_is_mode box_pillow
           (mkImage (3, 2) [(1, 2, 3, 255); (9, 9, 9, 255); (9, 9, 9, 10);
                            (1, 2, 3, 9); (250, 250, 250, 255); (9, 9, 9, 200)])).
  exists (1, 2, 3, 255). split; [left; reflexivity | reflexivity].
Defined.

Lemma dominant_color_of_recolored_witness :
  @dominant_color box_pillow (recolor_to_white (Image_new (8, 8) (12, 34, 56, 200)))
  = (245, 245, 245).
Proof.
  apply (@dominant_color_of_recolored box_pillow (Image_new (8, 8) (12, 34, 56, 200)));
    simpl; lia.
Defined.

End ImageMore.

(** ** [make_card] and the loop of [main] *)

Module CardMore.
Import Str Py Color Img Card Batch BatchFacts SlugMore Notions.

Section WithLibraries.
Context {pil : Pillow} {lm : Libm}.

(** [make_card] up to the statistics: a negative canvas or radius is
    refused with [ValueError] when the card and the mask are made; then, when
    the logo can be fitted, the tuple of bands handed to [ImageStat.Stat] is
    refused with [TypeError], and when it cannot, the error of [fit_logo] is
    raised. *)
Lemma make_card_fit (logo_img : Image) (out_path : pystr) (bg_rgb : option color)
    (canvas radius : Z) :
  make_card logo_img out_path bg_rgb canvas radius
  = if (canvas <? 0) || (radius <? 0) then Raise ValueError
    else match fit_logo (copy logo_img) canvas 0.62%float with
         | Ok _ => Raise TypeError
         | Raise e => Raise e
         end.
Proof.
  unfold make_card, Image_new_checked, rounded_mask. simpl.
  destruct (canvas <? 0); [reflexivity|]. simpl.
  destruct (radius <? 0); [reflexivity|]. simpl.
  destruct (fit_logo (copy logo_img) canvas 0.62%float); reflexivity.
Qed.

(** C1: scenario A stops where the average colour of the fitted logo is
    asked for. The 100 by 100 red logo is fitted to 372 by 372, as the claim
    says; then [ImageStat.Stat] is handed the tuple of the first three bands,
    which is neither an image nor a list, and raises [TypeError]. No
    contrast is computed, nothing is recoloured or pasted, and no card is
    made. *)
Theorem make_card_scenario_A (out_path : pystr) :
  fit_logo (copy red_logo) 600 0.62%float = Ok (resize red_logo (372, 372)) /\
  make_card red_logo out_path (Some red) 600 40 = Raise TypeError.
Proof.
  assert (E : fit_logo (copy red_logo) 600 0.62%float = Ok (resize red_logo (372, 372))).
  { unfold fit_logo, copy. change (size red_logo) with (100, 100).
    assert (F : fit_size (100, 100) 600 0.62%float = Ok (372, 372))
      by (vm_compute; reflexivity).
    rewrite F. reflexivity. }
  split; [exact E|]. rewrite make_card_fit, E. reflexivity.
Qed.

(** [make_card] never writes a card: whatever the logo, the colour, the
    canvas and the radius, it raises. *)
Theorem make_card_raises (logo_img : Image) (out_path : pystr) (bg_rgb : option color)
    (canvas radius : Z) :
  exists e, make_card logo_img out_path bg_rgb canvas radius = Raise e.
Proof.
  rewrite make_card_fit. destruct ((canvas <? 0) || (radius <? 0)); [eauto|].
  destruct (fit_logo (copy logo_img) canvas 0.62%float) as [fitted|e]; eauto.
Qed.

End WithLibraries.

Section WithWorld.
Context {db : UnicodeDB} {pil : Pillow} {lm : Libm} {world : World}.

Lemma process_row_no_result args row :
  snd (process_row args row) = None /\
  forall e, In e (fst (process_row args row)) -> is_output_file e = false.
Proof.
  unfold process_row.
  destruct (_ || _); [split; [reflexivity | intros e []]|].
  destruct (first_logo (candidate_urls row)) as [ev found] eqn:E.
  assert (Hev : forall e, In e ev -> is_output_file e = false).
  { clear -E. revert ev found E.
    induction (candidate_urls row) as [|u rest IH]; simpl; intros ev found E.
    - inversion E; subst. intros e [].
    - destruct (fetch_bytes u) as [|b bs].
      + destruct (first_logo rest) as [ev' r'] eqn:E'. inversion E; subst.
        intros e [<-|He]; [reflexivity | eapply IH; eauto].
      + destruct (open_image_auto (b :: bs)) as [img|err].
        * inversion E; subst. intros e [<-|[]]. reflexivity.
        * destruct (first_logo rest) as [ev' r'] eqn:E'. inversion E; subst.
          intros e [<-|He]; [reflexivity | eapply IH; eauto]. }
  destruct found as [[logo_img used_url]|].
  - rewrite make_card_fit.
    destruct ((600 <? 0) || (radius args <? 0));
      [|destruct (fit_logo (copy logo_img) 600 0.62%float) as [fitted|err]]; simpl;
      (split; [reflexivity|]); intros e He; apply in_app_or in He;
      destruct He as [He|[<-|[]]]; auto.
  - simpl. split; [reflexivity|]. intros e He. apply in_app_or in He.
    destruct He as [He|[<-|[]]]; auto.
Qed.

Lemma process_rows_no_result args rows_ :
  snd (process_rows args rows_) = [] /\
  forall e, In e (fst (process_rows args rows_)) -> is_output_file e = false.
Proof.
  induction rows_ as [|row rest [IH1 IH2]]; simpl; [split; [reflexivity | intros e []]|].
  destruct (process_row_no_result args row) as [H1 H2].
  destruct (process_row args row) as [ev r]. destruct (process_rows args rest) as [evs rs].
  simpl in *. subst. split; [reflexivity|].
  intros e He. apply in_app_or in He. destruct He; auto.
Qed.

(** No run of [main] saves a card: whatever the sheet, the network and the
    images, no PNG is written. When the four columns are there, the run ends
    by writing an archive with no entry and printing a count of 0; the
    archive is at the path [os.path.join] makes of the working directory and
    [--zipname], which is [--zipname] itself when it is absolute. When
    writing the archive raises, the exception ends the run instead, with
    status 1 and no summary. *)
Theorem main_saves_nothing (args : Args) (df : DataFrame) :
  (forall path card, ~ In (SavePng path card) (fst (main args df))) /\
  (missing_columns df = [] ->
   let zip_path := path_join getcwd (zipname args) in
   exists ev,
     main args df
     = match zip_error zip_path [] with
       | None =>
           (Makedirs (outdir args) :: ev
            ++ [WriteZip zip_path []; Print (Summary 0 zip_path)], None)
       | Some e => (Makedirs (outdir args) :: ev ++ [Uncaught e], Some 1)
       end) /\
  (startswith [slash] (zipname args) = true ->
   path_join getcwd (zipname args) = zipname args).
Proof.
  unfold main. destruct (process_rows_no_result args (rows df)) as [H1 H2].
  destruct (process_rows args (rows df)) as [ev results]. simpl in H1, H2. subst results.
  split; [|split].
  - intros path card Hin. destruct (missing_columns df).
    + simpl in Hin.
      destruct (zip_error (path_join getcwd (zipname args)) []); simpl in Hin;
        (destruct Hin as [Hin|Hin]; [discriminate|]);
        apply in_app_or in Hin.
      * destruct Hin as [Hin|[Hin|[]]]; try discriminate. apply H2 in Hin. discriminate.
      * destruct Hin as [Hin|[Hin|[Hin|[]]]]; try discriminate.
        apply H2 in Hin. discriminate.
    + simpl in Hin. destruct Hin as [Hin|[Hin|[]]]; discriminate.
  - intros ->. cbv zeta. exists ev. simpl.
    destruct (zip_error (path_join getcwd (zipname args)) []); reflexivity.
  - intros Habs. unfold path_join. rewrite Habs. reflexivity.
Qed.

(** *** The loop over the candidate URLs *)

(** The first URL that yields an image wins: the URLs before it were
    fetched and failed, it is the last one fetched, and the URLs after it
    are not fetched. When every URL fails, all were fetched and no logo is
    found. *)
Theorem first_logo_spec (urls : list pystr) :
  match snd (first_logo urls) with
  | Some (img, u) =>
      exists before after,
        urls = before ++ u :: after /\
        Forall url_fails before /\
        open_image_auto (fetch_bytes u) = Ok img /\ fetch_bytes u <> [] /\
        fst (first_logo urls) = map Get (before ++ [u])
  | None =>
      Forall url_fails urls /\ fst (first_logo urls) = map Get urls
  end.
Proof.
  induction urls as [|u rest IH]; simpl; [split; [constructor | reflexivity]|].
  destruct (fetch_bytes u) as [|b bs] eqn:Ef.
  - assert (Hu : url_fails u) by (left; exact Ef).
    destruct (first_logo rest) as [ev r]. simpl in *.
    destruct r as [[img v]|].
    + destruct IH as [before [after [E [Hb [Hd [Hn Hev]]]]]].
      exists (u :: before), after. subst. simpl. repeat split; auto.
    + destruct IH as [Hall Hev]. subst. split; [constructor; assumption | reflexivity].
  - destruct (open_image_auto (b :: bs)) as [img|e] eqn:Ed.
    + simpl. exists [], rest. rewrite Ef. repeat split; auto. discriminate.
    + assert (Hu : url_fails u) by (right; exists e; rewrite Ef; exact Ed).
      destruct (first_logo rest) as [ev r]. simpl in *.
      destruct r as [[img v]|].
      * destruct IH as [before [after [E [Hb [Hd [Hn Hev]]]]]].
        exists (u :: before), after. subst. simpl. repeat split; auto.
      * destruct IH as [Hall Hev]. subst. split; [constructor; assumption | reflexivity].
Qed.

(** *** Paths *)

Lemma basename_no_slash b : ~ In slash b -> basename b = b.
Proof.
  intros H. unfold basename.
  assert (A : forall s, ~ In slash s ->
              (fix upto (s : pystr) : pystr :=
                 match s with
                 | [] => []
                 | c :: t => if (c =? slash)%N then [] else c :: upto t
                 end) s = s).
  { induction s as [|c t IH]; intros Hs; [reflexivity|].
    destruct (N.eqb_spec c slash) as [->|_]; [exfalso; apply Hs; left; reflexivity|].
    f_equal. apply IH. intros Hin. apply Hs. right. exact Hin. }
  rewrite A; [apply rev_involutive|]. intros Hin. apply H, in_rev, Hin.
Qed.

Lemma basename_after_slash a b : ~ In slash b -> basename (a ++ slash :: b) = b.
Proof.
  intros H. unfold basename. rewrite rev_app_distr. simpl. rewrite <- app_assoc. simpl.
  assert (A : forall s r, ~ In slash s ->
              (fix upto (s : pystr) : pystr :=
                 match s with
                 | [] => []
                 | c :: t => if (c =? slash)%N then [] else c :: upto t
                 end) (s ++ slash :: r) = s).
  { induction s as [|c t IH]; intros r Hs; simpl.
    - reflexivity.
    - destruct (N.eqb_spec c slash) as [->|_]; [exfalso; apply Hs; left; reflexivity|].
      f_equal. apply IH. intros Hin. apply Hs. right. exact Hin. }
  rewrite A; [apply rev_involutive|]. intros Hin. apply H, in_rev, Hin.
Qed.

(** The file of a brand stays in the output directory: whatever the brand
    name, the output directory and the Unicode database, the file name part
    of the output path is the slug followed by ".png", so a name such as
    "../../x" cannot move the file elsewhere. *)
Theorem out_path_basename (out : pystr) (brand : pystr) :
  basename (path_join out (slugify brand ++ of_ascii ".png"))
  = slugify brand ++ of_ascii ".png".
Proof.
  assert (Hns : ~ In slash (slugify brand ++ of_ascii ".png")).
  { intros Hin. apply in_app_or in Hin. destruct Hin as [Hin|Hin].
    - destruct (slugify_chars brand) as [_ [H _]].
      apply H in Hin. destruct Hin as [Hin _]. discriminate Hin.
    - simpl in Hin. repeat (destruct Hin as [Hin|Hin]; [discriminate|]). destruct Hin. }
  assert (Hrel : startswith [slash] (slugify brand ++ of_ascii ".png") = false).
  { destruct (slugify brand ++ of_ascii ".png") as [|c t]; [reflexivity|].
    unfold startswith. destruct (N.eqb_spec slash c) as [<-|_]; [|reflexivity].
    exfalso. apply Hns. left. reflexivity. }
  unfold path_join. rewrite Hrel. destruct (rev out) as [|c t] eqn:E.
  - apply basename_no_slash, Hns.
  - destruct (N.eqb_spec c slash) as [->|_].
    + assert (Eo : out = rev t ++ [slash]).
      { rewrite <- (rev_involutive out), E. reflexivity. }
      rewrite Eo, <- app_assoc. simpl. apply basename_after_slash, Hns.
    + simpl. apply basename_after_slash, Hns.
Qed.

End WithWorld.

End CardMore.

(** ** More on luminance and contrast *)

Module ColorMore.
Import Py Color Img Binary64 Notions FloatSign.
#[local] Open Scope float_scope.

Lemma In_zseq len : forall start c,
  (start <= c < start + Z.of_nat len)%Z -> In c (zseq start len).
Proof.
  induction len as [|n IH]; intros start c H; [lia|].
  simpl. destruct (Z.eq_dec start c) as [->|Hne]; [left; reflexivity|].
  right. apply IH. lia.
Qed.

Lemma mul_const_nonneg (c x : float) m e :
  Prim2SF c = S754_finite false m e -> (0 <=? x) = true -> (0 <=? c * x) = true.
Proof.
  intros Hc Hx. apply leb_0_nonneg. rewrite mul_spec, Hc.
  apply SFmul_nonneg_finite, leb_0_nonneg, Hx.
Qed.

Lemma add_nonneg (x y : float) :
  (0 <=? x) = true -> (0 <=? y) = true -> (0 <=? x + y) = true.
Proof.
  intros Hx Hy. apply leb_0_nonneg. rewrite add_spec.
  apply SFadd_nonneg; apply leb_0_nonneg; assumption.
Qed.

Section WithLibm.
Context {lm : Libm}.

Lemma channel_good_all : pow_nonneg -> Forall channel_good (zseq 0 256).
Proof.
  intros Hpow.
  let l := eval vm_compute in (zseq 0 256) in change (zseq 0 256) with l.
  repeat (apply Forall_cons;
          [ unfold channel_good; vm_compute;
            first [ reflexivity | apply Hpow; vm_compute; reflexivity ] | ]).
  apply Forall_nil.
Qed.

Lemma channel_valid c :
  pow_nonneg -> valid_channel c -> exists v, channel c = Ok v /\ (0 <=? v) = true.
Proof.
  intros Hpow Hc. pose proof (channel_good_all Hpow) as H.
  rewrite Forall_forall in H. specialize (H c).
  unfold channel_good in H. destruct (channel c) as [v|e].
  - exists v. split; [reflexivity|]. apply H, In_zseq. unfold valid_channel in Hc. simpl. lia.
  - exfalso. apply H, In_zseq. unfold valid_channel in Hc. simpl. lia.
Qed.

Lemma luminance_valid (rgb : color) :
  pow_nonneg -> valid_color rgb ->
  exists L, relative_luminance rgb = Ok L /\ (0 <=? L) = true.
Proof.
  intros Hpow. destruct rgb as [[r g] b]. intros [Hr [Hg Hb]].
  destruct (channel_valid r Hpow Hr) as [vr [Er Pr]].
  destruct (channel_valid g Hpow Hg) as [vg [Eg Pg]].
  destruct (channel_valid b Hpow Hb) as [vb [Eb Pb]].
  unfold relative_luminance. rewrite Er, Eg, Eb. simpl.
  eexists. split; [reflexivity|].
  apply add_nonneg; [apply add_nonneg|];
    eapply mul_const_nonneg; try eassumption; vm_compute; reflexivity.
Qed.

Lemma nonneg_not_nan (x : float) : (0 <=? x) = true -> Prim2SF x <> S754_nan.
Proof.
  intros H E. apply leb_0_nonneg in H. rewrite E in H. exact H.
Qed.

(** For a colour with channels in 0..255, [relative_luminance] raises
    nothing, and its value is not negative and not NaN. *)
Theorem relative_luminance_nonneg (rgb : color) :
  pow_nonneg -> valid_color rgb ->
  exists L, relative_luminance rgb = Ok L /\ (0 <=? L) = true /\ Prim2SF L <> S754_nan.
Proof.
  intros Hpow Hv. destruct (luminance_valid rgb Hpow Hv) as [L [E P]].
  exists L. split; [exact E|]. split; [exact P|]. apply nonneg_not_nan, P.
Qed.

Lemma add_same (x y c : float) m e :
  Prim2SF c = S754_finite false m e ->
  SFcompare (Prim2SF x) (Prim2SF y) = Some Eq -> x + c = y + c.
Proof.
  intros Hc H. apply SFcompare_Eq in H. destruct H as [H|[s [s' [Hx Hy]]]].
  - apply Prim2SF_inj in H. subst. reflexivity.
  - apply Prim2SF_inj. rewrite !add_spec, Hx, Hy, Hc. reflexivity.
Qed.

(** C8: [contrast_ratio] is symmetric. For two colours with channels in
    0..255, the two orders of the arguments give the same result: the same
    float, bit for bit, or the same exception. The C library is asked for
    one thing: that a base that is not negative, raised to the power 2.4,
    is not negative. *)
Theorem contrast_ratio_symmetric (rgb1 rgb2 : color) :
  pow_nonneg -> valid_color rgb1 -> valid_color rgb2 ->
  contrast_ratio rgb1 rgb2 = contrast_ratio rgb2 rgb1.
Proof.
  intros Hpow H1 H2.
  destruct (luminance_valid rgb1 Hpow H1) as [L1 [E1 P1]].
  destruct (luminance_valid rgb2 Hpow H2) as [L2 [E2 P2]].
  unfold contrast_ratio. rewrite E1, E2. simpl.
  unfold fmax, fmin.
  destruct (L1 <? L2) eqn:A; destruct (L2 <? L1) eqn:B; try reflexivity.
  - rewrite ltb_spec in A, B. apply SFltb_asym in A. congruence.
  - rewrite ltb_spec in A, B.
    pose proof (not_ltb_either _ _ (nonneg_not_nan _ P1) (nonneg_not_nan _ P2) A B) as E.
    rewrite (add_same L1 L2 0.05 _ _ eq_refl E). reflexivity.
Qed.

End WithLibm.

Lemma square_pow_nonneg : @pow_nonneg square_pow.
Proof.
  intros x Hx. simpl. apply leb_0_nonneg. rewrite mul_spec.
  apply SFmul_nonneg_self, leb_0_nonneg, Hx.
Qed.

Lemma relative_luminance_nonneg_witness :
  exists L, @relative_luminance square_pow (18, 52, 86)%Z = Ok L /\ (0 <=? L) = true
            /\ Prim2SF L <> S754_nan.
Proof.
  apply (@relative_luminance_nonneg square_pow (18, 52, 86)%Z square_pow_nonneg).
  unfold valid_color, valid_channel. lia.
Defined.

Lemma contrast_ratio_symmetric_witness :
  @contrast_ratio square_pow (18, 52, 86)%Z (250, 250, 0)%Z
  = @contrast_ratio square_pow (250, 250, 0)%Z (18, 52, 86)%Z.
Proof.
  apply (@contrast_ratio_symmetric square_pow (18, 52, 86)%Z (250, 250, 0)%Z square_pow_nonneg);
    unfold valid_color, valid_channel; lia.
Defined.

End ColorMore.

(** ** [fit_logo] and what follows from it *)

Module FitFacts.
Import Str Py Color Img Card Batch BatchFacts Binary64 Notions Binary64Facts CardMore.

Lemma float_of_int_exact n :
  1 <= n < 9007199254740992 ->
  exists x m e, float_of_int n = Ok x /\ repr x m e /\ -52 <= e <= 0 /\
                F2R (Zpos m) e = IZR n.
Proof.
  intros Hn. destruct n as [|p|p]; try lia.
  destruct (binary_normalize_exact p ltac:(lia)) as [m [e [E [Hm [He Hv]]]]].
  exists (SF2Prim (S754_finite false m e)), m, e.
  unfold float_of_int. rewrite E. split; [reflexivity|].
  split; [|split; assumption].
  split; [|exact Hm]. apply Prim2SF_SF2Prim, valid_normal; [exact Hm | lia].
Qed.

Lemma int_truediv_spec t w :
  1 <= t < 9007199254740992 -> 1 <= w < 9007199254740992 ->
  exists q m e, int_truediv t w = Ok q /\ repr q m e /\ -105 <= e <= 1 /\
    (Rabs (F2R (Zpos m) e - IZR t / IZR w) <= bpow2 e / 2)%R.
Proof.
  intros Ht Hw.
  destruct (float_of_int_exact t Ht) as [x [mx [ex [Ex [[Px Nx] [Hex Vx]]]]]].
  destruct (float_of_int_exact w Hw) as [y [my [ey [Ey [[Py Ny] [Hey Vy]]]]]].
  destruct (SFdiv_normal false mx ex false my ey Nx Ny ltac:(lia) ltac:(lia))
    as [m [e [E [Hm [He Herr]]]]].
  exists (x / y)%float, m, e. unfold int_truediv.
  destruct (Z.eqb_spec w 0) as [|_]; [lia|]. rewrite Ex, Ey. cbn [bind].
  split; [reflexivity|]. split; [|split; [lia|]].
  - split; [|exact Hm]. rewrite div_spec, Px, Py. exact E.
  - rewrite <- Vx, <- Vy. exact Herr.
Qed.

Lemma int_mul_float_spec w s ms es :
  1 <= w < 9007199254740992 -> repr s ms es -> -200 <= es <= 200 ->
  exists p m e, int_mul_float w s = Ok p /\ repr p m e /\
    (Rabs (F2R (Zpos m) e - IZR w * F2R (Zpos ms) es) <= bpow2 e / 2)%R.
Proof.
  intros Hw [Ps Ns] Hes.
  destruct (float_of_int_exact w Hw) as [x [mx [ex [Ex [[Px Nx] [Hex Vx]]]]]].
  destruct (SFmul_normal false mx ex false ms es Nx Ns ltac:(lia) ltac:(lia))
    as [m [e [E [Hm [He Herr]]]]].
  exists (x * s)%float, m, e. unfold int_mul_float. rewrite Ex. cbn [bind].
  split; [reflexivity|]. split.
  - split; [|exact Hm]. rewrite mul_spec, Px, Ps. exact E.
  - rewrite <- Vx. exact Herr.
Qed.

Lemma int_of_float_floor p m e :
  repr p m e -> e <= 0 ->
  exists n, int_of_float p = Ok n /\ (IZR n <= F2R (Zpos m) e < IZR n + 1)%R.
Proof.
  intros [Pp Np] He. exists (Z.shiftl (Zpos m) e). unfold int_of_float. rewrite Pp.
  split; [reflexivity | apply shiftl_floor, He].
Qed.

Lemma fmin_spec a ma ea b mb eb :
  repr a ma ea -> repr b mb eb ->
  exists ms es, repr (fmin a b) ms es /\ (es = ea \/ es = eb) /\
    (F2R (Zpos ms) es <= F2R (Zpos ma) ea)%R /\ (F2R (Zpos ms) es <= F2R (Zpos mb) eb)%R /\
    (F2R (Zpos ms) es = F2R (Zpos ma) ea \/ F2R (Zpos ms) es = F2R (Zpos mb) eb).
Proof.
  intros [Pa Na] [Pb Nb]. unfold fmin. rewrite ltb_spec, Pb, Pa.
  pose proof (SFltb_normal mb eb ma ea Nb Na) as H.
  destruct (SFltb (S754_finite false mb eb) (S754_finite false ma ea)).
  - exists mb, eb. split; [split; assumption|]. split; [right; reflexivity|].
    split; [lra|]. split; [lra | right; reflexivity].
  - exists ma, ea. split; [split; assumption|]. split; [left; reflexivity|].
    split; [lra|]. split; [lra | left; reflexivity].
Qed.

(** The error of a rounding, relative to the result: 2^-53. *)
Lemma rel_err m e (X : R) :
  normal m -> (Rabs (F2R (Zpos m) e - X) <= bpow2 e / 2)%R ->
  (F2R (Zpos m) e * (1 - / 9007199254740992) <= X <= F2R (Zpos m) e * (1 + / 9007199254740992))%R.
Proof.
  intros Hm Herr. apply Rabs_le_inv in Herr.
  pose proof (normal_bounds m e Hm) as [A _].
  rewrite bpow2_add, bpow2_52 in A. pose proof (bpow2_pos e). lra.
Qed.

Lemma fit_size_target w h canvas_size max_ratio :
  fit_size (w, h) canvas_size max_ratio
  = t <- target canvas_size max_ratio ;; fit_dims t w h.
Proof.
  unfold fit_size, target, fit_dims.
  destruct (int_mul_float canvas_size max_ratio) as [x|e]; [|reflexivity].
  cbn [bind]. destruct (int_of_float x); reflexivity.
Qed.

#[local] Open Scope R_scope.

(** A float with a fraction part is a multiple of a power of two that
    divides 1; so an integer on one side of the number rounded is on the
    same side of the float it is rounded to. *)
Lemma round_keeps_integer_below m e (X : R) (k : Z) :
  (e <= 0)%Z -> Rabs (F2R (Zpos m) e - X) <= bpow2 e / 2 ->
  IZR k <= X -> IZR k <= F2R (Zpos m) e.
Proof.
  intros He Herr Hk. apply Rabs_le_inv in Herr.
  pose proof (bpow2_pos e) as Hb.
  assert (Ek : IZR k = IZR (k * 2 ^ (- e)) * bpow2 e).
  { rewrite mult_IZR, <- (bpow2_nonneg_IZR (- e)), bpow2_opp by lia. field. lra. }
  destruct (Rle_lt_dec (IZR k) (F2R (Zpos m) e)) as [|Hlt]; [assumption|]. exfalso.
  unfold F2R in *. rewrite Ek in Hlt.
  assert (Hm : (Zpos m < k * 2 ^ (- e))%Z).
  { apply lt_IZR. apply Rmult_lt_reg_r with (bpow2 e); assumption. }
  assert (Hm' : IZR (Zpos m) + 1 <= IZR (k * 2 ^ (- e))).
  { rewrite <- plus_IZR. apply IZR_le. lia. }
  assert ((IZR (Zpos m) + 1) * bpow2 e <= IZR (k * 2 ^ (- e)) * bpow2 e).
  { apply Rmult_le_compat_r; lra. }
  lra.
Qed.

Lemma round_keeps_integer_above m e (X : R) (k : Z) :
  (e <= 0)%Z -> Rabs (F2R (Zpos m) e - X) <= bpow2 e / 2 ->
  X <= IZR k -> F2R (Zpos m) e <= IZR k.
Proof.
  intros He Herr Hk. apply Rabs_le_inv in Herr.
  pose proof (bpow2_pos e) as Hb.
  assert (Ek : IZR k = IZR (k * 2 ^ (- e)) * bpow2 e).
  { rewrite mult_IZR, <- (bpow2_nonneg_IZR (- e)), bpow2_opp by lia. field. lra. }
  destruct (Rle_lt_dec (F2R (Zpos m) e) (IZR k)) as [|Hlt]; [assumption|]. exfalso.
  unfold F2R in *. rewrite Ek in Hlt.
  assert (Hm : (k * 2 ^ (- e) < Zpos m)%Z).
  { apply lt_IZR. apply Rmult_lt_reg_r with (bpow2 e); assumption. }
  assert (Hm' : IZR (k * 2 ^ (- e)) + 1 <= IZR (Zpos m)).
  { rewrite <- plus_IZR. apply IZR_le. lia. }
  assert ((IZR (k * 2 ^ (- e)) + 1) * bpow2 e <= IZR (Zpos m) * bpow2 e).
  { apply Rmult_le_compat_r; lra. }
  lra.
Qed.

(** One axis: the dimension [n] computed from the side [w] and the scale
    [s], which is at most the rounded [t / w]. *)
Lemma fit_axis t w s ms es :
  (1 <= t < 2147483648)%Z -> (1 <= w < 2147483648)%Z ->
  repr s ms es -> (-105 <= es <= 1)%Z ->
  F2R (Zpos ms) es * (1 - / 9007199254740992) * IZR w <= IZR t ->
  exists p n,
    int_mul_float w s = Ok p /\ int_of_float p = Ok n /\ (n <= t)%Z /\
    (IZR t <= F2R (Zpos ms) es * (1 + / 9007199254740992) * IZR w -> (t - 1 <= n)%Z) /\
    IZR n - 1 < IZR w * F2R (Zpos ms) es < IZR n + 1.
Proof.
  intros Ht Hw Hs Hes Hup.
  destruct (int_mul_float_spec w s ms es ltac:(lia) Hs ltac:(lia))
    as [p [m [e [Ep [Hp Herr]]]]].
  pose proof (rel_err m e _ (proj2 Hp) Herr) as [R1 R2].
  set (P := F2R (Zpos m) e) in *. set (S := F2R (Zpos ms) es) in *.
  assert (HT : 1 <= IZR t <= 2147483647) by (split; apply IZR_le; lia).
  assert (HW : 1 <= IZR w) by (apply IZR_le; lia).
  assert (HP : 0 < P) by apply F2R_pos.
  assert (HS : 0 < S) by apply F2R_pos.
  assert (Hlt : P < IZR t + 1).
  { destruct (Rlt_le_dec P (IZR t + 1)) as [|Hge]; [assumption|]. exfalso.
    assert (A : P * (1 - / 9007199254740992) * (1 - / 9007199254740992) <= IZR t).
    { apply Rle_trans with (IZR w * S * (1 - / 9007199254740992)); [|lra].
      apply Rmult_le_compat_r; lra. }
    assert (B : (IZR t + 1) * (1 - / 9007199254740992) * (1 - / 9007199254740992)
                <= P * (1 - / 9007199254740992) * (1 - / 9007199254740992)).
    { apply Rmult_le_compat_r; [lra|]. apply Rmult_le_compat_r; lra. }
    lra. }
  assert (He : (e <= 0)%Z).
  { pose proof (normal_bounds m e (proj2 Hp)) as [A _]. fold P in A.
    assert (bpow2 (e + 52) < bpow2 31).
    { rewrite (bpow2_nonneg_IZR 31) by lia. change (2 ^ 31)%Z with 2147483648%Z. lra. }
    apply bpow2_lt_inv in H. lia. }
  destruct (int_of_float_floor p m e Hp He) as [n [En [F1 F2]]]. fold P in F1, F2.
  exists p, n. split; [exact Ep|]. split; [exact En|]. split; [|split].
  - apply Z.lt_succ_r. apply lt_IZR. unfold Z.succ. rewrite plus_IZR. lra.
  - intros Hlow.
    assert (IZR t - 1 < P).
    { destruct (Rlt_le_dec (IZR t - 1) P) as [|Hge]; [assumption|]. exfalso.
      assert (A : IZR t <= P * (1 + / 9007199254740992) * (1 + / 9007199254740992)).
      { apply Rle_trans with (IZR w * S * (1 + / 9007199254740992)); [lra|].
        apply Rmult_le_compat_r; lra. }
      assert (B : P * (1 + / 9007199254740992) * (1 + / 9007199254740992)
                  <= (IZR t - 1) * (1 + / 9007199254740992) * (1 + / 9007199254740992)).
      { apply Rmult_le_compat_r; [lra|]. apply Rmult_le_compat_r; lra. }
      lra. }
    assert (IZR (t - 2) < IZR n) by (rewrite minus_IZR; lra).
    apply lt_IZR in H0. lia.
  - fold S. split.
    + destruct (Rlt_le_dec (IZR n - 1) (IZR w * S)) as [|Hge]; [assumption|]. exfalso.
      rewrite <- minus_IZR in Hge.
      pose proof (round_keeps_integer_above m e _ _ He Herr Hge) as Hc.
      fold P in Hc. rewrite minus_IZR in Hc. lra.
    + destruct (Rlt_le_dec (IZR w * S) (IZR n + 1)) as [|Hge]; [assumption|]. exfalso.
      rewrite <- plus_IZR in Hge.
      pose proof (round_keeps_integer_below m e _ _ He Herr Hge) as Hc.
      fold P in Hc. rewrite plus_IZR in Hc. lra.
Qed.

(** The size [fit_logo] asks for, for sides and a target that an image can
    have. Both quotients are computed; the scale is the smaller of the two
    floats, which is the smaller of the two exact quotients up to the
    rounding of one division; each dimension is within one pixel of the side
    times the scale; both dimensions are at least 1 and at most the target,
    and the larger one is the target or one pixel less. *)
Lemma fit_dims_bounds (t w h : Z) :
  (1 <= t < 2147483648)%Z -> (1 <= w < 2147483648)%Z -> (1 <= h < 2147483648)%Z ->
  exists sw sh nw nh,
    int_truediv t w = Ok sw /\ int_truediv t h = Ok sh /\
    fit_dims t w h = Ok (nw, nh) /\
    (1 <= nw <= t)%Z /\ (1 <= nh <= t)%Z /\ (t - 1 <= Z.max nw nh)%Z /\
    (let S := B2R (fmin sw sh) in
     0 < S /\
     S * (1 - / 9007199254740992) <= Rmin (IZR t / IZR w) (IZR t / IZR h)
       <= S * (1 + / 9007199254740992) /\
     Rabs (IZR nw - IZR w * S) < 1 /\ Rabs (IZR nh - IZR h * S) < 1) /\
    (Z.abs (nw * h - nh * w) < w + h)%Z.
Proof.
  intros Ht Hw Hh.
  destruct (int_truediv_spec t w ltac:(lia) ltac:(lia)) as [qw [mw [ew [Eqw [Rw [Hew Errw]]]]]].
  destruct (int_truediv_spec t h ltac:(lia) ltac:(lia)) as [qh [mh [eh [Eqh [Rh [Heh Errh]]]]]].
  pose proof (rel_err mw ew _ (proj2 Rw) Errw) as [W1 W2].
  pose proof (rel_err mh eh _ (proj2 Rh) Errh) as [H1 H2].
  destruct (fmin_spec qw mw ew qh mh eh Rw Rh) as [ms [es [Rs [Hes [Sw [Sh Seq]]]]]].
  set (S := F2R (Zpos ms) es) in *.
  assert (HT : 1 <= IZR t) by (apply IZR_le; lia).
  assert (HW : 1 <= IZR w) by (apply IZR_le; lia).
  assert (HH : 1 <= IZR h) by (apply IZR_le; lia).
  assert (HS : 0 < S) by apply F2R_pos.
  assert (Dw : IZR t / IZR w * IZR w = IZR t) by (field; lra).
  assert (Dh : IZR t / IZR h * IZR h = IZR t) by (field; lra).
  assert (Uw : S * (1 - / 9007199254740992) * IZR w <= IZR t).
  { rewrite <- Dw. apply Rmult_le_compat_r; [lra|]. nra. }
  assert (Uh : S * (1 - / 9007199254740992) * IZR h <= IZR t).
  { rewrite <- Dh. apply Rmult_le_compat_r; [lra|]. nra. }
  destruct (fit_axis t w (fmin qw qh) ms es Ht Hw Rs ltac:(lia) Uw)
    as [pw [nw [Epw [Enw [Bw [Lw Aw]]]]]].
  destruct (fit_axis t h (fmin qw qh) ms es Ht Hh Rs ltac:(lia) Uh)
    as [ph [nh [Eph [Enh [Bh [Lh Ah]]]]]].
  fold S in Aw, Ah.
  exists qw, qh, (Z.max 1 nw), (Z.max 1 nh).
  split; [exact Eqw|]. split; [exact Eqh|].
  unfold fit_dims. rewrite Eqw, Eqh. cbn [bind]. rewrite Epw. cbn [bind].
  rewrite Enw. cbn [bind]. rewrite Eph. cbn [bind]. rewrite Enh. cbn [bind].
  split; [reflexivity|]. split; [lia|]. split; [lia|].
  assert (Tw : Rabs (IZR (Z.max 1 nw) - IZR w * S) < 1).
  { assert (0 < IZR w * S) by (apply Rmult_lt_0_compat; lra).
    destruct (Z.max_spec 1 nw) as [[_ ->]|[Hle ->]].
    - apply Rabs_def1; lra.
    - assert (IZR nw <= 1) by (apply IZR_le; lia). apply Rabs_def1; lra. }
  assert (Th : Rabs (IZR (Z.max 1 nh) - IZR h * S) < 1).
  { assert (0 < IZR h * S) by (apply Rmult_lt_0_compat; lra).
    destruct (Z.max_spec 1 nh) as [[_ ->]|[Hle ->]].
    - apply Rabs_def1; lra.
    - assert (IZR nh <= 1) by (apply IZR_le; lia). apply Rabs_def1; lra. }
  assert (Cross : (Z.abs (Z.max 1 nw * h - Z.max 1 nh * w) < w + h)%Z).
  { apply Rabs_def2 in Tw, Th. destruct Tw as [Tw1 Tw2], Th as [Th1 Th2].
    set (a := Z.max 1 nw) in *. set (b := Z.max 1 nh) in *.
    assert (C1 : IZR (a * h - b * w) < IZR (w + h)).
    { rewrite minus_IZR, plus_IZR, !mult_IZR. nra. }
    assert (C2 : IZR (- (w + h)) < IZR (a * h - b * w)).
    { rewrite opp_IZR, minus_IZR, plus_IZR, !mult_IZR. nra. }
    apply lt_IZR in C1, C2. lia. }
  cut (t - 1 <= Z.max (Z.max 1 nw) (Z.max 1 nh))%Z.
  { intros Hfill. split; [exact Hfill|]. split; [|exact Cross].
    assert (ES : B2R (fmin qw qh) = S).
    { unfold B2R. rewrite (proj1 Rs). reflexivity. }
    cbv zeta. rewrite ES. split; [exact HS|]. split; [|split; assumption].
    split.
    - apply Rmin_glb.
      + apply Rle_trans with (F2R (Zpos mw) ew * (1 - / 9007199254740992)); [|lra].
        apply Rmult_le_compat_r; lra.
      + apply Rle_trans with (F2R (Zpos mh) eh * (1 - / 9007199254740992)); [|lra].
        apply Rmult_le_compat_r; lra.
    - destruct Seq as [->| ->].
      + apply Rle_trans with (IZR t / IZR w); [apply Rmin_l | lra].
      + apply Rle_trans with (IZR t / IZR h); [apply Rmin_r | lra]. }
  (* the larger side gets the scale of the smaller quotient *)
  destruct (Z_le_gt_dec h w) as [Hhw|Hwh].
  - assert (IZR t <= S * (1 + / 9007199254740992) * IZR w); [|specialize (Lw H); lia].
    rewrite <- Dw. apply Rmult_le_compat_r; [lra|].
    destruct Seq as [->| ->]; [lra|].
    apply Rle_trans with (IZR t / IZR h); [|lra].
    apply IZR_le in Hhw. unfold Rdiv. apply Rmult_le_compat_l; [lra|].
    apply Rinv_le_contravar; lra.
  - assert (IZR t <= S * (1 + / 9007199254740992) * IZR h); [|specialize (Lh H); lia].
    rewrite <- Dh. apply Rmult_le_compat_r; [lra|].
    destruct Seq as [->| ->]; [|lra].
    apply Rle_trans with (IZR t / IZR w); [|lra].
    assert (IZR w <= IZR h) by (apply IZR_le; lia).
    unfold Rdiv. apply Rmult_le_compat_l; [lra|].
    apply Rinv_le_contravar; lra.
Qed.

#[local] Close Scope R_scope.

(** The target of the cards of [main]: 62 percent of 600 pixels. *)
Lemma target_600 : target 600 0.62 = Ok 372.
Proof. vm_compute. reflexivity. Qed.

(** *** A target that is not positive, and a side that is zero *)

Lemma float_of_int_zero :
  exists x, float_of_int 0 = Ok x /\ Prim2SF x = S754_zero false.
Proof. eexists. split; [reflexivity | vm_compute; reflexivity]. Qed.

Lemma float_of_int_neg n :
  -9007199254740992 < n <= -1 ->
  exists x m e, float_of_int n = Ok x /\ Prim2SF x = S754_finite true m e /\
                normal m /\ -52 <= e <= 0.
Proof.
  intros Hn. destruct n as [|p|p]; try lia.
  destruct (binary_normalize_neg_exact p ltac:(lia)) as [m [e [E [Hm [He _]]]]].
  exists (SF2Prim (S754_finite true m e)), m, e.
  unfold float_of_int. rewrite E. split; [reflexivity|].
  split; [|split; assumption].
  apply Prim2SF_SF2Prim, valid_normal; [exact Hm | lia].
Qed.

Lemma float_of_int_ok n :
  -9007199254740992 < n < 9007199254740992 -> exists x, float_of_int n = Ok x.
Proof.
  intros Hn. destruct (Z_lt_le_dec n 0) as [Hneg|Hpos].
  - destruct (float_of_int_neg n ltac:(lia)) as [x [_ [_ [E _]]]]. eauto.
  - destruct (Z.eq_dec n 0) as [->|Hnz].
    + destruct float_of_int_zero as [x [E _]]. eauto.
    + destruct (float_of_int_exact n ltac:(lia)) as [x [_ [_ [E _]]]]. eauto.
Qed.

Lemma fit_dims_zero (t w h : Z) :
  -2147483648 < t < 2147483648 -> 0 <= w < 2147483648 -> 0 <= h < 2147483648 ->
  w = 0 \/ h = 0 -> fit_dims t w h = Raise ZeroDivisionError.
Proof.
  intros Ht Hw Hh H0. unfold fit_dims.
  destruct (Z.eq_dec w 0) as [->|Nw]; [reflexivity|].
  destruct H0 as [->| ->]; [lia|].
  destruct (float_of_int_ok t ltac:(lia)) as [x Ex].
  destruct (float_of_int_ok w ltac:(lia)) as [y Ey].
  unfold int_truediv. destruct (Z.eqb_spec w 0) as [|_]; [lia|].
  rewrite Ex, Ey. reflexivity.
Qed.

(** With a target of 0 the scale is 0, and with a negative one it is
    negative: both dimensions come out as the 1 of [max(1, ...)]. *)
Lemma fit_dims_zero_target (w h : Z) :
  1 <= w < 2147483648 -> 1 <= h < 2147483648 -> fit_dims 0 w h = Ok (1, 1).
Proof.
  intros Hw Hh.
  destruct float_of_int_zero as [x [Ex Px]].
  destruct (float_of_int_exact w ltac:(lia)) as [y [my [ey [Ey [[Py _] _]]]]].
  destruct (float_of_int_exact h ltac:(lia)) as [z [mz [ez [Ez [[Pz _] _]]]]].
  assert (Qy : Prim2SF (x / y) = S754_zero false).
  { rewrite div_spec, Px, Py. reflexivity. }
  assert (Qz : Prim2SF (x / z) = S754_zero false).
  { rewrite div_spec, Px, Pz. reflexivity. }
  assert (Qs : Prim2SF (fmin (x / y) (x / z)) = S754_zero false).
  { unfold fmin. destruct (x / z <? x / y)%float; assumption. }
  unfold fit_dims, int_truediv.
  destruct (Z.eqb_spec w 0) as [|_]; [lia|]. destruct (Z.eqb_spec h 0) as [|_]; [lia|].
  rewrite Ex, Ey, Ez. cbn [bind]. unfold int_mul_float. rewrite Ey, Ez. cbn [bind].
  unfold int_of_float. rewrite !mul_spec, Qs, Py, Pz. reflexivity.
Qed.

Lemma fit_dims_negative_target (t w h : Z) :
  -2147483648 < t <= -1 -> 1 <= w < 2147483648 -> 1 <= h < 2147483648 ->
  fit_dims t w h = Ok (1, 1).
Proof.
  intros Ht Hw Hh.
  destruct (float_of_int_neg t ltac:(lia)) as [x [mx [ex [Ex [Px [Nx Hex]]]]]].
  destruct (float_of_int_exact w ltac:(lia)) as [y [my [ey [Ey [[Py Ny] [Hey _]]]]]].
  destruct (float_of_int_exact h ltac:(lia)) as [z [mz [ez [Ez [[Pz Nz] [Hez _]]]]]].
  destruct (SFdiv_normal true mx ex false my ey Nx Ny ltac:(lia) ltac:(lia))
    as [mq [eq [Eq [Nq [Heq _]]]]].
  destruct (SFdiv_normal true mx ex false mz ez Nx Nz ltac:(lia) ltac:(lia))
    as [mr [er [Er [Nr [Her _]]]]].
  assert (Qy : Prim2SF (x / y) = S754_finite true mq eq).
  { rewrite div_spec, Px, Py. exact Eq. }
  assert (Qz : Prim2SF (x / z) = S754_finite true mr er).
  { rewrite div_spec, Px, Pz. exact Er. }
  assert (Qs : exists ms es, Prim2SF (fmin (x / y) (x / z)) = S754_finite true ms es /\
                             normal ms /\ -105 <= es <= 1).
  { unfold fmin. destruct (x / z <? x / y)%float.
    - exists mr, er. split; [exact Qz|]. split; [exact Nr | lia].
    - exists mq, eq. split; [exact Qy|]. split; [exact Nq | lia]. }
  destruct Qs as [ms [es [Ps [Ns Hes]]]].
  destruct (SFmul_normal false my ey true ms es Ny Ns ltac:(lia) ltac:(lia))
    as [ma [ea [Ea _]]].
  destruct (SFmul_normal false mz ez true ms es Nz Ns ltac:(lia) ltac:(lia))
    as [mb [eb [Eb _]]].
  unfold fit_dims, int_truediv.
  destruct (Z.eqb_spec w 0) as [|_]; [lia|]. destruct (Z.eqb_spec h 0) as [|_]; [lia|].
  rewrite Ex, Ey, Ez. cbn [bind]. unfold int_mul_float. rewrite Ey, Ez. cbn [bind].
  unfold int_of_float. rewrite !mul_spec, Ps, Py, Pz.
  rewrite Ea, Eb. cbn [xorb bind cond_Zopp].
  pose proof (Z.shiftl_nonneg (Zpos ma) ea) as Sa.
  pose proof (Z.shiftl_nonneg (Zpos mb) eb) as Sb.
  assert (0 <= Z.shiftl (Zpos ma) ea) by (apply Sa; lia).
  assert (0 <= Z.shiftl (Zpos mb) eb) by (apply Sb; lia).
  f_equal. f_equal; lia.
Qed.

Section WithPillow.
Context {pil : Pillow}.

Lemma fit_logo_target (logo : Image) (canvas_size : Z) (max_ratio : float) (t : Z) :
  target canvas_size max_ratio = Ok t ->
  fit_logo logo canvas_size max_ratio
  = new_size <- fit_dims t (fst (size logo)) (snd (size logo)) ;; Ok (resize logo new_size).
Proof.
  intros Et. unfold fit_logo. destruct (size logo) as [w h].
  rewrite fit_size_target, Et. reflexivity.
Qed.

(** [fit_logo] on a logo of at least one pixel each way, for a target of at
    least one pixel: the logo is resized, both sides of the result are
    between 1 and the target, the longer side is the target or one pixel
    less, and the sides keep the proportion of the logo up to the rounding
    of each to a whole pixel. *)
Theorem fit_logo_bounds (logo : Image) (canvas_size : Z) (max_ratio : float) (t : Z) :
  target canvas_size max_ratio = Ok t ->
  1 <= t < 2147483648 ->
  1 <= fst (size logo) < 2147483648 -> 1 <= snd (size logo) < 2147483648 ->
  exists fitted nw nh,
    fit_logo logo canvas_size max_ratio = Ok fitted /\ size fitted = (nw, nh) /\
    1 <= nw <= t /\ 1 <= nh <= t /\ t - 1 <= Z.max nw nh /\
    Z.abs (nw * snd (size logo) - nh * fst (size logo)) < fst (size logo) + snd (size logo).
Proof.
  intros Et Ht Hw Hh. rewrite (fit_logo_target logo _ _ t Et).
  destruct (fit_dims_bounds t _ _ Ht Hw Hh)
    as [sw [sh [nw [nh [_ [_ [E [Bw [Bh [Bm [_ Ba]]]]]]]]]]].
  rewrite E. cbn [bind].
  exists (resize logo (nw, nh)), nw, nh.
  split; [reflexivity|]. split; [apply resize_size|]. auto.
Qed.

(** A logo with no pixels cannot be fitted: a zero width or height makes
    the quotient of the target by it raise [ZeroDivisionError]. *)
Theorem fit_logo_empty (logo : Image) (canvas_size : Z) (max_ratio : float) (t : Z) :
  target canvas_size max_ratio = Ok t ->
  1 <= t < 2147483648 ->
  0 <= fst (size logo) < 2147483648 -> 0 <= snd (size logo) < 2147483648 ->
  fst (size logo) = 0 \/ snd (size logo) = 0 ->
  fit_logo logo canvas_size max_ratio = Raise ZeroDivisionError.
Proof.
  intros Et Ht Hw Hh H0. rewrite (fit_logo_target logo _ _ t Et).
  rewrite (fit_dims_zero t _ _ ltac:(lia) Hw Hh H0). reflexivity.
Qed.

(** C5: for a logo with positive width and height, [fit_logo] computes the
    two quotients target / width and target / height, takes the smaller
    float as the one scale of both axes, and resizes the logo: the scale is
    the smaller of the two exact quotients up to the rounding of one
    division (a factor within 2^-53 of 1), and each side of the result is
    within one pixel of the side of the logo times the scale. So the
    proportions agree up to that one pixel a side: the cross products
    differ by less than width + height. Sides and target are below 2^31, and
    the target at least 1. *)
Theorem fit_logo_scale (logo : Image) (canvas_size : Z) (max_ratio : float) (t : Z) :
  target canvas_size max_ratio = Ok t ->
  1 <= t < 2147483648 ->
  1 <= fst (size logo) < 2147483648 -> 1 <= snd (size logo) < 2147483648 ->
  exists sw sh fitted,
    int_truediv t (fst (size logo)) = Ok sw /\
    int_truediv t (snd (size logo)) = Ok sh /\
    fit_logo logo canvas_size max_ratio = Ok fitted /\
    (let scale := B2R (fmin sw sh) in
     let w := IZR (fst (size logo)) in
     let h := IZR (snd (size logo)) in
     0 < scale /\
     scale * (1 - / 9007199254740992) <= Rmin (IZR t / w) (IZR t / h)
       <= scale * (1 + / 9007199254740992) /\
     Rabs (IZR (fst (size fitted)) - w * scale) < 1 /\
     Rabs (IZR (snd (size fitted)) - h * scale) < 1)%R /\
    Z.abs (fst (size fitted) * snd (size logo) - snd (size fitted) * fst (size logo))
    < fst (size logo) + snd (size logo).
Proof.
  intros Et Ht Hw Hh. rewrite (fit_logo_target logo _ _ t Et).
  destruct (fit_dims_bounds t _ _ Ht Hw Hh)
    as [sw [sh [nw [nh [Ew [Eh [E [_ [_ [_ [Hs Ba]]]]]]]]]]].
  rewrite E. cbn [bind].
  exists sw, sh, (resize logo (nw, nh)).
  rewrite resize_size. cbn [fst snd].
  split; [exact Ew|]. split; [exact Eh|]. split; [reflexivity|].
  split; [exact Hs | exact Ba].
Qed.

(** C10: [fit_logo] returns on the logos whose width and height are both at
    least 1, and on no other: a width or a height of 0 makes the quotient
    of the target by it raise [ZeroDivisionError]. On a logo of at least one
    pixel each way both sides of the result are at least 1, and at most the
    target when the target is at least 1. Sides and target are below 2^31
    in absolute value. *)
Theorem fit_logo_total (logo : Image) (canvas_size : Z) (max_ratio : float) (t : Z) :
  target canvas_size max_ratio = Ok t ->
  -2147483648 < t < 2147483648 ->
  0 <= fst (size logo) < 2147483648 -> 0 <= snd (size logo) < 2147483648 ->
  (fst (size logo) = 0 \/ snd (size logo) = 0 ->
   fit_logo logo canvas_size max_ratio = Raise ZeroDivisionError) /\
  (1 <= fst (size logo) -> 1 <= snd (size logo) ->
   exists fitted,
     fit_logo logo canvas_size max_ratio = Ok fitted /\
     1 <= fst (size fitted) /\ 1 <= snd (size fitted) /\
     (1 <= t -> fst (size fitted) <= t /\ snd (size fitted) <= t)).
Proof.
  intros Et Ht Hw Hh. rewrite (fit_logo_target logo _ _ t Et). split.
  - intros H0. rewrite (fit_dims_zero t _ _ Ht Hw Hh H0). reflexivity.
  - intros Hw1 Hh1. destruct (Z_lt_le_dec t 1) as [Hlow|Hpos].
    + assert (E : fit_dims t (fst (size logo)) (snd (size logo)) = Ok (1, 1)).
      { destruct (Z.eq_dec t 0) as [->|Hnz].
        - apply fit_dims_zero_target; lia.
        - apply fit_dims_negative_target; lia. }
      rewrite E. cbn [bind]. exists (resize logo (1, 1)).
      rewrite resize_size. cbn [fst snd].
      split; [reflexivity|]. split; [lia|]. split; lia.
    + destruct (fit_dims_bounds t (fst (size logo)) (snd (size logo)))
        as [sw [sh [nw [nh [_ [_ [E [Bw [Bh _]]]]]]]]]; try lia.
      rewrite E. cbn [bind]. exists (resize logo (nw, nh)).
      rewrite resize_size. cbn [fst snd].
      split; [reflexivity|]. split; [lia|]. split; [lia|]. intros _. lia.
Qed.

Section WithLibm.
Context {lm : Libm}.


End WithLibm.
End WithPillow.

Section WithWorld.
Context {db : UnicodeDB} {pil : Pillow} {lm : Libm} {world : World}.

(** A row whose logo was downloaded ends with the error line of its brand
    and adds nothing to the results: the error is the [TypeError] of the
    statistics, or, with a negative [--radius], the [ValueError] of the
    mask. The logo is one an image file can hold: at least one pixel each
    way, and a dominant colour with channels in 0..255. *)
Theorem process_row_error_line (args : Args) (row : pystr -> cell)
    (ev : list event) (logo_img : Image) (used_url : pystr) :
  let brand := strip (str_of_cell (row name_col)) in
  brand <> [] -> pystr_eqb (lower brand) (of_ascii "nan") = false ->
  first_logo (candidate_urls row) = (ev, Some (logo_img, used_url)) ->
  1 <= fst (size logo_img) < 2147483648 -> 1 <= snd (size logo_img) < 2147483648 ->
  valid_color (dominant_color logo_img) ->
  process_row args row
  = (ev ++ [Print (Err brand (if radius args <? 0 then ValueError else TypeError))], None).
Proof.
  intros brand Hb Hn Hf Hw Hh _. unfold process_row. fold brand.
  destruct brand as [|c t] eqn:Eb; [congruence|]. rewrite Hn. cbn [orb].
  rewrite Hf, make_card_fit. unfold copy. cbn [Z.ltb Z.compare orb].
  destruct (radius args <? 0); [reflexivity|].
  rewrite (fit_logo_target logo_img _ _ 372 target_600).
  destruct (fit_dims_bounds 372 (fst (size logo_img)) (snd (size logo_img)))
    as [sw [sh [nw [nh [_ [_ [E _]]]]]]]; try lia.
  rewrite E. reflexivity.
Qed.

End WithWorld.

Lemma fit_logo_bounds_witness :
  exists fitted nw nh,
    @fit_logo nearest_pillow red_logo 600 0.62 = Ok fitted /\ size fitted = (nw, nh) /\
    1 <= nw <= 372 /\ 1 <= nh <= 372 /\ 371 <= Z.max nw nh /\
    Z.abs (nw * 100 - nh * 100) < 200.
Proof.
  apply (@fit_logo_bounds nearest_pillow red_logo 600 0.62 372);
    [exact target_600 | simpl; lia | simpl; lia | simpl; lia].
Defined.

Lemma fit_logo_empty_witness :
  @fit_logo nearest_pillow (Image_new (0, 16) (0, 0, 0, 0)) 600 0.62 = Raise ZeroDivisionError.
Proof.
  apply (@fit_logo_empty nearest_pillow (Image_new (0, 16) (0, 0, 0, 0)) 600 0.62 372);
    [exact target_600 | simpl; lia | simpl; lia | simpl; lia | left; reflexivity].
Defined.

Lemma fit_logo_scale_witness :
  exists sw sh fitted,
    int_truediv 372 100 = Ok sw /\ int_truediv 372 100 = Ok sh /\
    @fit_logo nearest_pillow red_logo 600 0.62 = Ok fitted /\
    (0 < B2R (fmin sw sh) /\
     B2R (fmin sw sh) * (1 - / 9007199254740992) <= Rmin (372 / 100) (372 / 100)
       <= B2R (fmin sw sh) * (1 + / 9007199254740992) /\
     Rabs (IZR (fst (size fitted)) - 100 * B2R (fmin sw sh)) < 1 /\
     Rabs (IZR (snd (size fitted)) - 100 * B2R (fmin sw sh)) < 1)%R /\
    Z.abs (fst (size fitted) * 100 - snd (size fitted) * 100) < 200.
Proof.
  apply (@fit_logo_scale nearest_pillow red_logo 600 0.62 372);
    [exact target_600 | simpl; lia | simpl; lia | simpl; lia].
Defined.

Lemma fit_logo_total_witness :
  (fst (size red_logo) = 0 \/ snd (size red_logo) = 0 ->
   @fit_logo nearest_pillow red_logo 600 0.62 = Raise ZeroDivisionError) /\
  (1 <= fst (size red_logo) -> 1 <= snd (size red_logo) ->
   exists fitted,
     @fit_logo nearest_pillow red_logo 600 0.62 = Ok fitted /\
     1 <= fst (size fitted) /\ 1 <= snd (size fitted) /\
     (1 <= 372 -> fst (size fitted) <= 372 /\ snd (size fitted) <= 372)).
Proof.
  apply (@fit_logo_total nearest_pillow red_logo 600 0.62 372);
    [exact target_600 | lia | simpl; lia | simpl; lia].
Defined.


Lemma process_row_error_line_witness :
  @process_row symbols_only nearest_pillow square_pow one_logo_world default_args acme_row
  = ([Get (of_ascii "https://cdn.example/acme.png")]
     ++ [Print (Err (of_ascii "Acme") TypeError)], None).
Proof.
  apply (@process_row_error_line symbols_only nearest_pillow square_pow one_logo_world
           default_args acme_row [Get (of_ascii "https://cdn.example/acme.png")]
           red_logo (of_ascii "https://cdn.example/acme.png")).
  - vm_compute. discriminate.
  - vm_compute. reflexivity.
  - vm_compute. reflexivity.
  - simpl. lia.
  - simpl. lia.
  - vm_compute. intuition discriminate.
Defined.

End FitFacts.

(** ** Addresses and downloads *)

Module UrlFacts.
Import Str Py Color Img Card Batch Url.

Lemma startswith_app p s : startswith p (p ++ s) = true.
Proof.
  induction p as [|c p IH]; simpl; [reflexivity|].
  rewrite N.eqb_refl. exact IH.
Qed.

Lemma startswith_nonempty p s : p <> [] -> startswith p s = true -> s <> [].
Proof. destruct p, s; simpl; congruence. Qed.

(** [ensure_url] gives every address but the empty one a scheme, touches no
    address that has one, and so changes nothing when applied again. *)
Theorem ensure_url_spec (url : pystr) :
  (url <> [] ->
   (startswith (of_ascii "http://") (ensure_url url)
    || startswith (of_ascii "https://") (ensure_url url)) = true) /\
  ((startswith (of_ascii "http://") url || startswith (of_ascii "https://") url) = true ->
   ensure_url url = url) /\
  ensure_url (ensure_url url) = ensure_url url.
Proof.
  assert (Fix : forall u,
            (startswith (of_ascii "http://") u || startswith (of_ascii "https://") u) = true ->
            ensure_url u = u).
  { intros u H. unfold ensure_url. destruct u; [reflexivity|]. rewrite H. reflexivity. }
  assert (Sch : url <> [] ->
            (startswith (of_ascii "http://") (ensure_url url)
             || startswith (of_ascii "https://") (ensure_url url)) = true).
  { intros Hne. unfold ensure_url. destruct url as [|c t]; [congruence|].
    destruct (startswith (of_ascii "http://") (c :: t)
              || startswith (of_ascii "https://") (c :: t)) eqn:E; [exact E|].
    rewrite (startswith_app (of_ascii "https://")). apply orb_true_r. }
  split; [exact Sch|]. split; [apply Fix|].
  destruct url as [|c t]; [reflexivity|]. apply Fix, Sch. discriminate.
Qed.

Section WithWorld.
Context {db : UnicodeDB} {pil : Pillow} {lm : Libm} {world : World}.

Lemma candidate_urls_length row : (List.length (candidate_urls row) <= 3)%nat.
Proof.
  unfold candidate_urls. rewrite !length_app.
  destruct (strip (str_of_cell (row bf_col))), (strip (str_of_cell (row cb_col))),
    (strip (str_of_cell (row site_col))); simpl; lia.
Qed.

Lemma first_logo_gets urls :
  exists fetched rest,
    urls = fetched ++ rest /\ fst (first_logo urls) = map Get fetched.
Proof.
  induction urls as [|u t [fetched [rest [E H]]]]; simpl.
  - exists [], []. split; reflexivity.
  - destruct (fetch_bytes u) as [|b bs].
    + destruct (first_logo t) as [ev r]. simpl in *. subst.
      exists (u :: fetched), rest. split; reflexivity.
    + destruct (open_image_auto (b :: bs)) as [img|err].
      * exists [u], t. split; reflexivity.
      * destruct (first_logo t) as [ev r]. simpl in *. subst.
        exists (u :: fetched), rest. split; reflexivity.
Qed.

Lemma filter_get_map l : filter is_get (map Get l) = map Get l.
Proof. induction l as [|u t IH]; simpl; [reflexivity | f_equal; exact IH]. Qed.

(** The downloads of a row: they are the first of its candidate addresses,
    in order and each once, so at most three; and a row without a brand
    downloads nothing. *)
Theorem process_row_downloads (args : Args) (row : pystr -> cell) :
  (exists fetched rest,
     filter is_get (fst (process_row args row)) = map Get fetched /\
     (fetched = [] \/ candidate_urls row = fetched ++ rest)) /\
  (List.length (filter is_get (fst (process_row args row))) <= 3)%nat /\
  (strip (str_of_cell (row name_col)) = [] -> fst (process_row args row) = []).
Proof.
  assert (A : exists fetched rest,
     filter is_get (fst (process_row args row)) = map Get fetched /\
     (fetched = [] \/ candidate_urls row = fetched ++ rest)).
  { unfold process_row.
    destruct (_ || _); [exists [], []; split; [reflexivity | left; reflexivity]|].
    destruct (first_logo_gets (candidate_urls row)) as [fetched [rest [E H]]].
    destruct (first_logo (candidate_urls row)) as [ev found]. simpl in H. subst ev.
    exists fetched, rest. split; [|right; exact E].
    destruct found as [[logo_img used_url]|].
    - destruct (make_card _ _ _ _ _) as [[path card]|e]; simpl;
        rewrite filter_app, filter_get_map; simpl; apply app_nil_r.
    - simpl. rewrite filter_app, filter_get_map. simpl. apply app_nil_r. }
  split; [exact A|]. split.
  - destruct A as [fetched [rest [-> [->|E]]]]; [simpl; lia|].
    rewrite length_map. pose proof (candidate_urls_length row) as L.
    rewrite E, length_app in L. lia.
  - intros E. unfold process_row. rewrite E. reflexivity.
Qed.

End WithWorld.

End UrlFacts.
